(** * The continuous projection schedule (package [schedule], file
      [projection/schedule/continuous.go])

    A shallow embedding of the [Continuous] schedule: its configuration and
    options, the debounce-cap heuristic, the three closures of [handleEvents]
    ([clearDebounce], [createJob], [addEvent]) over the variables they
    capture, a statement-level interleaving semantics of the goroutines that
    run those closures, and the set-up part of [Subscribe]. *)

From Stdlib Require Import ZArith List Bool String Lia.
From stdpp Require Import base list.
Import ListNotations.
Local Open Scope Z_scope.

(* ===================================================================== *)
(** * Package [time] *)
(* ===================================================================== *)

Module time.

(** [time.Duration] is an [int64] count of nanoseconds. *)
Definition Duration := Z.

Definition minInt64 : Z := - 2 ^ 63.
Definition maxInt64 : Z := 2 ^ 63 - 1.

Definition isInt64 (z : Z) : Prop := minInt64 <= z <= maxInt64.

(** Two's-complement wrap-around of an [int64] result. *)
Definition wrap64 (z : Z) : Z := (z + 2 ^ 63) mod 2 ^ 64 - 2 ^ 63.

Definition Nanosecond : Duration := 1.
Definition Microsecond : Duration := 1000 * Nanosecond.
Definition Millisecond : Duration := 1000 * Microsecond.
Definition Second : Duration := 1000 * Millisecond.

(** [d * k] on [Duration]s, as Go evaluates it. *)
Definition mul (d k : Duration) : Duration := wrap64 (d * k).

(** A point of the monotonic clock, in nanoseconds. *)
Definition Instant := Z.

(** The runtime's view of a [*time.Timer] created by [time.AfterFunc]. *)
Inductive Status := Armed | Stopped | Fired.

Record Timer := mkTimer { when : Instant; status : Status }.

(** [t.Stop()]: prevents an armed timer from firing; a timer that has
    already fired or been stopped is left as it is. *)
Definition Stop (t : Timer) : Timer :=
  match status t with
  | Armed => mkTimer (when t) Stopped
  | _ => t
  end.

End time.

(* ===================================================================== *)
(** * Package [event] and the collaborators of a Job *)
(* ===================================================================== *)

Module event.

(** What the schedule needs of an [event.Event]: identity, name and the
    time it occurred at. *)
Record Event := mkEvent { ID : nat; Name : string; Time : time.Instant }.

Inductive Sorting :=
  SortTime | SortAggregateName | SortAggregateID | SortAggregateVersion.
Inductive SortDirection := SortAsc | SortDesc.

End event.

Module query.
Record SortOption := SortBy { Sort : event.Sorting; Dir : event.SortDirection }.
(** [query.New(opts...)], restricted to the sort options. *)
Record Query := New { Sortings : list SortOption }.
End query.

Module eventstore.
(** [eventstore.New(events...)]: an in-memory store holding the given
    events. *)
Record Store := New { Events : list event.Event }.
End eventstore.

Module projection.

(** A [projection.Trigger], by a name. *)
Inductive Trigger := mkTrigger (name : string).

(** [projection.Subscription], the part that [Subscribe] inspects: the
    pointer to the trigger of a startup Job, nil when none is configured. *)
Record Subscription := mkSubscription { Startup : option Trigger }.

(** A [projection.Job] as [newJob] builds it from a subscription, a store
    and a query. *)
Record Job := mkJob {
  sub : Subscription;
  store : eventstore.Store;
  qry : query.Query
}.

End projection.

(* ===================================================================== *)
(** * The [Continuous] schedule: configuration and options *)
(* ===================================================================== *)

Definition defaultDebounceBarrier : time.Duration := 2500 * time.Millisecond.

(** The exported package variable [DefaultDebounceCap]; [Continuously] reads
    its current value, which is [5 * time.Second] unless a program assigns
    to it. *)
Record PackageVars := mkVars { DefaultDebounceCap : time.Duration }.

Definition initVars : PackageVars := mkVars (5 * time.Second).

Module Continuous.

Record t := mk {
  eventNames : list string;       (* of the embedded [*schedule] *)
  debounce : time.Duration;
  debounceCap : time.Duration;
  debounceCapManuallySet : bool
}.

End Continuous.

(** A [ContinuousOption] is a function that mutates the schedule it is
    given; here it returns the mutated schedule. *)
Definition ContinuousOption := Continuous.t -> Continuous.t.

Definition Debounce (d : time.Duration) : ContinuousOption :=
  fun c =>
    Continuous.mk (Continuous.eventNames c) d (Continuous.debounceCap c)
                  (Continuous.debounceCapManuallySet c).

Definition DebounceCap (cap : time.Duration) : ContinuousOption :=
  fun c =>
    Continuous.mk (Continuous.eventNames c) (Continuous.debounce c) cap true.

Definition Continuously (vars : PackageVars) (eventNames : list string)
    (opts : list ContinuousOption) : Continuous.t :=
  let c := Continuous.mk eventNames 0 (DefaultDebounceCap vars) false in
  fold_left (fun c opt => opt c) opts c.

Definition computeDebounceCap (s : Continuous.t) : time.Duration :=
  if Continuous.debounceCap s <=? 0 then 0
  else if Continuous.debounceCapManuallySet s then Continuous.debounceCap s
  else if Continuous.debounce s <=? defaultDebounceBarrier
       then Continuous.debounceCap s
  else time.mul (Continuous.debounce s) 2.

(** The cap heuristic in the words of the specification, a function of the
    debounce duration, the cap duration and the override flag; it is compared
    with [computeDebounceCap] below. *)
Definition specDebounceCap (d c : time.Duration) (o : bool) : time.Duration :=
  if c <=? 0 then 0
  else if o then c
  else if d <=? 2500 * time.Millisecond then 5 * time.Second
  else d * 2.

(** The options a caller can build, as data: every [ContinuousOption] of the
    package is [Debounce d] or [DebounceCap d]. *)
Inductive OptionKind := KDebounce (d : time.Duration) | KDebounceCap (d : time.Duration).

Definition toOption (k : OptionKind) : ContinuousOption :=
  match k with
  | KDebounce d => Debounce d
  | KDebounceCap d => DebounceCap d
  end.

(** The argument of the last [Debounce] in a list of options, if any. *)
Fixpoint lastDebounce (ks : list OptionKind) : option time.Duration :=
  match ks with
  | [] => None
  | k :: ks' =>
      match lastDebounce ks' with
      | Some d => Some d
      | None => match k with KDebounce d => Some d | KDebounceCap _ => None end
      end
  end.

(** The argument of the last [DebounceCap] in a list of options, if any. *)
Fixpoint lastDebounceCap (ks : list OptionKind) : option time.Duration :=
  match ks with
  | [] => None
  | k :: ks' =>
      match lastDebounceCap ks' with
      | Some d => Some d
      | None => match k with KDebounceCap d => Some d | KDebounce _ => None end
      end
  end.

(* ===================================================================== *)
(** * [handleEvents]: the captured variables and the three closures *)
(* ===================================================================== *)

(** The variables declared at lines 206-209 and captured by [clearDebounce],
    [createJob] and [addEvent].  A [*time.Timer] is the address of the timer
    in the runtime's timer heap ([None] is [nil]). *)
Module Locals.

Record t := mk {
  buf : list event.Event;
  debounce : option nat;
  debounceCap : option nat;
  jobCreated : bool
}.

Definition init : t := mk [] None None false.

End Locals.

(** Everything the closures read or write: the captured variables, the
    timer heap and the clock behind [time.AfterFunc], and the history of the
    [jobs] channel. *)
Record World := mkWorld {
  vars : Locals.t;
  timers : list time.Timer;          (* every timer created so far, by address *)
  now : time.Instant;
  created : list projection.Job;     (* Jobs returned by [newJob], oldest first *)
  sent : list projection.Job         (* Jobs accepted by the [jobs] channel *)
}.

Definition initWorld (t0 : time.Instant) : World :=
  mkWorld Locals.init [] t0 [] [].

Definition setVars (l : Locals.t) (w : World) : World :=
  mkWorld l (timers w) (now w) (created w) (sent w).

Definition setTimers (ts : list time.Timer) (w : World) : World :=
  mkWorld (vars w) ts (now w) (created w) (sent w).

Definition setNow (t : time.Instant) (w : World) : World :=
  mkWorld (vars w) (timers w) t (created w) (sent w).

(** [p.Stop()] through a possibly nil pointer, as guarded at lines 217 and
    222. *)
Definition stopIfSet (p : option nat) (ts : list time.Timer) : list time.Timer :=
  match p with
  | Some r => alter time.Stop r ts
  | None => ts
  end.

(** Lines 211-226. The whole body runs under [mux]. *)
Definition clearDebounce (w : World) : World :=
  let l := vars w in
  let ts := stopIfSet (Locals.debounce l) (timers w) in
  let ts := stopIfSet (Locals.debounceCap l) ts in
  mkWorld (Locals.mk (Locals.buf l) None None false) ts (now w)
          (created w) (sent w).

(** Modelled from the spec: [newJob] of the base schedule, which is not in
    this file; it wraps the subscription, the store and the query it is
    given into a Job. *)
Definition newJob (sub : projection.Subscription) (st : eventstore.Store)
    (q : query.Query) : projection.Job :=
  projection.mkJob sub st q.

(** Which case of the [select] at lines 250-253 ran.  The [select] blocks
    until the context is done or a receiver takes the Job; which of the two
    happens is up to the environment, so it is an input here. *)
Inductive Selected := CtxDone | JobSent.

(** Lines 236-248: the guard on [jobCreated], then the copy of [buf] into
    the new slice [events] and the construction of the Job. [None] is the
    early return.  A slice is the list of its elements: [make] gives
    [events] a backing array of its own, which nothing writes to after the
    [copy], so the appends that reuse the array of [buf] after [buf[:0]]
    cannot reach the events of a Job. *)
Definition createJob_snapshot (sub : projection.Subscription) (w : World)
    : option (projection.Job * World) :=
  if Locals.jobCreated (vars w) then None
  else
    let events := Locals.buf (vars w) in
    let job := newJob sub (eventstore.New events)
                 (query.New [query.SortBy event.SortTime event.SortAsc]) in
    Some (job, mkWorld (vars w) (timers w) (now w) (created w ++ [job]) (sent w)).

(** Lines 250-256: the [select], then [buf = buf[:0]] and
    [jobCreated = true]. *)
Definition createJob_deliver (o : Selected) (job : projection.Job) (w : World)
    : World :=
  let sent' := match o with
               | CtxDone => sent w
               | JobSent => sent w ++ [job]
               end in
  let l := vars w in
  mkWorld (Locals.mk [] (Locals.debounce l) (Locals.debounceCap l) true)
          (timers w) (now w) (created w) sent'.

(** Lines 233-256: what [createJob] does between [mux.Lock()] and the
    deferred [mux.Unlock()]. *)
Definition createJob_locked (sub : projection.Subscription) (o : Selected)
    (w : World) : World :=
  match createJob_snapshot sub w with
  | None => w
  | Some (job, w') => createJob_deliver o job w'
  end.

(** Lines 230-257, run without interruption: the deferred calls run in
    reverse order, [mux.Unlock()] first and [clearDebounce()] last. *)
Definition createJob (sub : projection.Subscription) (o : Selected)
    (w : World) : World :=
  clearDebounce (createJob_locked sub o w).

(** [time.AfterFunc(d, createJob)]: a new armed timer that expires [d] from
    now (at once when [d <= 0]); returns its address. *)
Definition AfterFunc (d : time.Duration) (w : World) : nat * World :=
  (length (timers w),
   setTimers (timers w ++ [time.mkTimer (now w + Z.max 0 d) time.Armed]) w).

(** Line 262. *)
Definition appendEvent (evt : event.Event) (w : World) : World :=
  let l := vars w in
  setVars (Locals.mk (Locals.buf l ++ [evt]) (Locals.debounce l)
                     (Locals.debounceCap l) (Locals.jobCreated l)) w.

(** Lines 269-276, under [mux]. *)
Definition armTimers (schedule : Continuous.t) (w : World) : World :=
  let '(d, w) := AfterFunc (Continuous.debounce schedule) w in
  let l := vars w in
  let w := setVars (Locals.mk (Locals.buf l) (Some d) (Locals.debounceCap l)
                              (Locals.jobCreated l)) w in
  let cap := computeDebounceCap schedule in
  if 0 <? cap then
    let '(c, w) := AfterFunc cap w in
    let l := vars w in
    setVars (Locals.mk (Locals.buf l) (Locals.debounce l) (Some c)
                       (Locals.jobCreated l)) w
  else w.

(** Lines 259-277, run without interruption. *)
Definition addEvent (schedule : Continuous.t) (sub : projection.Subscription)
    (o : Selected) (evt : event.Event) (w : World) : World :=
  let w := clearDebounce w in
  let w := appendEvent evt w in
  if Continuous.debounce schedule <=? 0 then createJob sub o w
  else armTimers schedule w.

(** [streams.ForEach] over a feed whose events arrive at the given instants,
    with no timer expiring in between: [addEvent] once per event, in
    order. *)
Definition feed (schedule : Continuous.t) (sub : projection.Subscription)
    (o : Selected) (arrivals : list (time.Instant * event.Event)) (w : World)
    : World :=
  fold_left (fun w a => addEvent schedule sub o (snd a) (setNow (fst a) w))
            arrivals w.

(* ===================================================================== *)
(** * The goroutines that run the closures *)
(* ===================================================================== *)

(** [handleEvents] runs [addEvent] on the goroutine of [streams.ForEach];
    every timer that expires runs [createJob] on a goroutine of its own.
    The goroutines interleave statement by statement.  A statement that
    needs [mux] can only run while no other goroutine holds it; line 262
    takes no lock and can run at any time. *)

(** Where an invocation of [createJob] stands. *)
Inductive Frame :=
  | AtLock                              (* before [mux.Lock()], line 233 *)
  | AtSelect (job : projection.Job)     (* holding [mux], at line 250 *)
  | AtDeferredClear                     (* [mux] released, line 231 pending *)
  | Returned.

(** Where the goroutine of [streams.ForEach] stands. *)
Inductive LoopPC :=
  | Waiting                             (* between two calls of [addEvent] *)
  | AtClear (evt : event.Event)         (* before line 260 *)
  | AtAppend (evt : event.Event)        (* before line 262 *)
  | InCreateJob (f : Frame)             (* inside the call at line 265 *)
  | AtArm.                              (* before [mux.Lock()], line 269 *)

Record System := mkSystem {
  world : World;
  mux : bool;                           (* [true] while a goroutine holds it *)
  loop : LoopPC;
  callbacks : list Frame                (* one per expired timer, by age *)
}.

Definition initSystem (t0 : time.Instant) : System :=
  mkSystem (initWorld t0) false Waiting [].

(** One statement of an invocation of [createJob]; [None] when the
    goroutine is blocked on [mux] or has returned. *)
Definition stepFrame (sub : projection.Subscription) (o : Selected)
    (f : Frame) (m : bool) (w : World) : option (Frame * bool * World) :=
  match f with
  | AtLock =>
      if m then None
      else match createJob_snapshot sub w with
           | None => Some (AtDeferredClear, false, w)
           | Some (job, w') => Some (AtSelect job, true, w')
           end
  | AtSelect job => Some (AtDeferredClear, false, createJob_deliver o job w)
  | AtDeferredClear =>
      if m then None else Some (Returned, false, clearDebounce w)
  | Returned => None
  end.

(** What the scheduler, the clock and the feed can do next. *)
Inductive Action :=
  | Elapse (d : time.Duration)          (* the clock advances by [d] *)
  | Receive (evt : event.Event)         (* [ForEach] calls [addEvent(evt)] *)
  | Loop (o : Selected)                 (* next statement of [addEvent] *)
  | Expire (r : nat)                    (* timer [r] fires: new goroutine *)
  | Callback (i : nat) (o : Selected).  (* next statement of callback [i] *)

Definition step (schedule : Continuous.t) (sub : projection.Subscription)
    (a : Action) (s : System) : option System :=
  let w := world s in
  match a with
  | Elapse d =>
      if d <? 0 then None
      else Some (mkSystem (setNow (now w + d) w) (mux s) (loop s) (callbacks s))
  | Receive evt =>
      match loop s with
      | Waiting => Some (mkSystem w (mux s) (AtClear evt) (callbacks s))
      | _ => None
      end
  | Loop o =>
      match loop s with
      | Waiting => None
      | AtClear evt =>
          if mux s then None
          else Some (mkSystem (clearDebounce w) false (AtAppend evt) (callbacks s))
      | AtAppend evt =>
          let pc := if Continuous.debounce schedule <=? 0
                    then InCreateJob AtLock else AtArm in
          Some (mkSystem (appendEvent evt w) (mux s) pc (callbacks s))
      | InCreateJob f =>
          match stepFrame sub o f (mux s) w with
          | Some (Returned, m, w') => Some (mkSystem w' m Waiting (callbacks s))
          | Some (f', m, w') => Some (mkSystem w' m (InCreateJob f') (callbacks s))
          | None => None
          end
      | AtArm =>
          if mux s then None
          else Some (mkSystem (armTimers schedule w) false Waiting (callbacks s))
      end
  | Expire r =>
      match timers w !! r with
      | Some (time.mkTimer at_ time.Armed) =>
          if at_ <=? now w
          then Some (mkSystem
                       (setTimers (<[r := time.mkTimer at_ time.Fired]> (timers w)) w)
                       (mux s) (loop s) (callbacks s ++ [AtLock]))
          else None
      | _ => None
      end
  | Callback i o =>
      match callbacks s !! i with
      | Some f =>
          match stepFrame sub o f (mux s) w with
          | Some (f', m, w') =>
              Some (mkSystem w' m (loop s) (<[i := f']> (callbacks s)))
          | None => None
          end
      | None => None
      end
  end.

(** A schedule of actions, run from left to right; [None] when one of them
    is not enabled where it stands. *)
Fixpoint run (schedule : Continuous.t) (sub : projection.Subscription)
    (acts : list Action) (s : System) : option System :=
  match acts with
  | [] => Some s
  | a :: acts' =>
      match step schedule sub a s with
      | Some s' => run schedule sub acts' s'
      | None => None
      end
  end.

(** Some invocation of [createJob] has left its locked part and has not yet
    run its deferred [clearDebounce]. *)
Definition createJobInProgress (s : System) : Prop :=
  loop s = InCreateJob AtDeferredClear \/
  exists i, callbacks s !! i = Some AtDeferredClear.

(** An invocation of [createJob] run to its return without another
    goroutine in between: at most [n] statements from frame [f]. *)
Fixpoint runFrame (n : nat) (sub : projection.Subscription) (o : Selected)
    (f : Frame) (m : bool) (w : World) : option (bool * World) :=
  match f, n with
  | Returned, _ => Some (m, w)
  | _, O => None
  | _, S n' =>
      match stepFrame sub o f m w with
      | Some (f', m', w') => runFrame n' sub o f' m' w'
      | None => None
      end
  end.

(** Every armed timer is one of the two the captured variables point to. *)
Definition armedAreHeld (w : World) : Prop :=
  forall r t, timers w !! r = Some t -> time.status t = time.Armed ->
    Locals.debounce (vars w) = Some r \/ Locals.debounceCap (vars w) = Some r.

(** What a burst leaves behind: both variables point to armed timers that
    expire the debounce, respectively the cap, after instant [t], and no
    other timer is armed. *)
Definition rearmedAt (schedule : Continuous.t) (t : time.Instant) (w : World)
    : Prop :=
  exists rd rc,
    Locals.debounce (vars w) = Some rd /\
    Locals.debounceCap (vars w) = Some rc /\
    timers w !! rd =
      Some (time.mkTimer (t + Continuous.debounce schedule) time.Armed) /\
    timers w !! rc =
      Some (time.mkTimer (t + computeDebounceCap schedule) time.Armed) /\
    forall r tm, timers w !! r = Some tm -> time.status tm = time.Armed ->
      r = rd \/ r = rc.

(** The Job [createJob] builds from a buffer. *)
Definition jobOf (sub : projection.Subscription) (events : list event.Event)
    : projection.Job :=
  newJob sub (eventstore.New events)
         (query.New [query.SortBy event.SortTime event.SortAsc]).

(** The events held by a Job's store. *)
Definition jobEvents (j : projection.Job) : list event.Event :=
  eventstore.Events (projection.store j).

(** The closures called one after the other, none interrupted: [addEvent]
    by [streams.ForEach] at some instant, [createJob] by a timer. *)
Inductive Call :=
  | CallAddEvent (at_ : time.Instant) (evt : event.Event) (o : Selected)
  | CallCreateJob (o : Selected).

Definition call (schedule : Continuous.t) (sub : projection.Subscription)
    (c : Call) (w : World) : World :=
  match c with
  | CallAddEvent at_ evt o => addEvent schedule sub o evt (setNow at_ w)
  | CallCreateJob o => createJob sub o w
  end.

Definition calls (schedule : Continuous.t) (sub : projection.Subscription)
    (cs : list Call) (w : World) : World :=
  fold_left (fun w c => call schedule sub c w) cs w.

(** The events handed to [addEvent] by a list of calls, in order. *)
Definition received (cs : list Call) : list event.Event :=
  flat_map (fun c => match c with
                     | CallAddEvent _ evt _ => [evt]
                     | CallCreateJob _ => []
                     end) cs.

(** The events of all Jobs built so far, followed by the buffer. *)
Definition accounted (w : World) : list event.Event :=
  concat (map jobEvents (created w)) ++ Locals.buf (vars w).

(** The event a step appends to the buffer, if it is the step of line
    262. *)
Definition appendedBy (a : Action) (s : System) : list event.Event :=
  match a, loop s with
  | Loop _, AtAppend evt => [evt]
  | _, _ => []
  end.

(** The step is not line 262 run while some goroutine holds [mux]. *)
Definition serialisedStep (a : Action) (s : System) : bool :=
  match a, loop s with
  | Loop _, AtAppend _ => negb (mux s)
  | _, _ => true
  end.

(** The events appended to the buffer along a schedule, in order. *)
Fixpoint appended (schedule : Continuous.t) (sub : projection.Subscription)
    (acts : list Action) (s : System) : list event.Event :=
  match acts with
  | [] => []
  | a :: acts' =>
      match step schedule sub a s with
      | Some s' => appendedBy a s ++ appended schedule sub acts' s'
      | None => []
      end
  end.

(** Along the schedule, line 262 never runs while a goroutine holds
    [mux]: the appends are serialised with the locked part of
    [createJob]. *)
Fixpoint appendsSerialised (schedule : Continuous.t)
    (sub : projection.Subscription) (acts : list Action) (s : System) : bool :=
  match acts with
  | [] => true
  | a :: acts' =>
      match step schedule sub a s with
      | Some s' => serialisedStep a s && appendsSerialised schedule sub acts' s'
      | None => true
      end
  end.

(** The Job in the hands of an invocation that stands at the [select]. *)
Definition selectingOf (f : Frame) : list projection.Job :=
  match f with
  | AtSelect job => [job]
  | _ => []
  end.

Definition selecting (s : System) : list projection.Job :=
  match loop s with
  | InCreateJob f => selectingOf f
  | _ => []
  end ++ flat_map selectingOf (callbacks s).

(** With [mux] free, the Jobs built so far and the buffer hold the events
    [ap], each once and in order; with [mux] held, one invocation stands at
    the [select], its Job holds what the buffer holds, and the Jobs built so
    far hold [ap]. *)
Definition accountsFor (m : bool) (sel : list projection.Job) (w : World)
    (ap : list event.Event) : Prop :=
  if m then
    exists job, sel = [job] /\ Locals.buf (vars w) = jobEvents job /\
                concat (map jobEvents (created w)) = ap
  else
    sel = [] /\ accounted w = ap.

(* ===================================================================== *)
(** * [Subscribe]: set-up and the goroutines it starts *)
(* ===================================================================== *)

(** Go errors: a plain error, or one built by [fmt.Errorf] with [%w]. *)
Inductive error :=
  | errorString (msg : string)
  | wrapError (msg : string) (err : error).

Definition Error (e : error) : string :=
  match e with
  | errorString msg => msg
  | wrapError msg _ => msg
  end.

Definition Unwrap (e : error) : option error :=
  match e with
  | errorString _ => None
  | wrapError _ err => Some err
  end.

(** [%v] of a [[]string]. *)
Definition formatNames (names : list string) : string :=
  ("[" ++ String.concat " " names ++ "]")%string.

(** The channels [Subscribe] handles. *)
Inductive Chan := chEvents | chErrs | chOut | chJobs | chTriggers | chDone.

(** The [go] statements of [Subscribe]. *)
Inductive Goroutine :=
  | goRemoveTriggers      (* lines 162-165: [<-done], then [removeTriggers] *)
  | goHandleEvents        (* line 176 *)
  | goHandleTriggers      (* line 177 *)
  | goApplyJobs           (* line 178 *)
  | goCloseJobs.          (* lines 180-183: [wg.Wait()], then [close(jobs)] *)

(** The channels a goroutine is given, as arguments or captured. *)
Definition holds (g : Goroutine) : list Chan :=
  match g with
  | goRemoveTriggers => [chDone; chTriggers]
  | goHandleEvents => [chEvents; chErrs; chJobs; chOut]
  | goHandleTriggers => [chTriggers; chJobs; chOut]
  | goApplyJobs => [chJobs; chOut; chDone]
  | goCloseJobs => [chJobs]
  end.

Definition isDone (c : Chan) : bool :=
  match c with chDone => true | _ => false end.

(** What [Subscribe] does, statement by statement. *)
Inductive Effect :=
  | BusSubscribe (names : list string)    (* line 152 *)
  | MakeChan (c : Chan)                   (* lines 157, 158 and 160 *)
  | NewTriggers                           (* line 159 *)
  | Go (g : Goroutine)
  | ApplyStartupJob                       (* line 168 *)
  | WgAdd (n : nat).                      (* line 174 *)

(** The collaborators [Subscribe] calls: [bus.Subscribe] and the base
    schedule's [applyStartupJob], by the error they return. *)
Record Collaborators := mkCollaborators {
  busSubscribe : list string -> option error;
  applyStartupJob : projection.Subscription -> option error
}.

(** The two results of [Subscribe] and what it did before returning, in
    program order. *)
Record Subscribed := mkSubscribed {
  errs : option Chan;
  err : option error;
  trace : list Effect
}.

(** Lines 173-185. *)
Definition startTasks (done_ : list Effect) : Subscribed :=
  mkSubscribed (Some chOut) None
    (done_ ++ [WgAdd 2; Go goHandleEvents; Go goHandleTriggers; Go goApplyJobs;
               Go goCloseJobs]).

Definition Subscribe (env : Collaborators) (schedule : Continuous.t)
    (cfg : projection.Subscription) : Subscribed :=
  let names := Continuous.eventNames schedule in
  let t := [BusSubscribe names] in
  match busSubscribe env names with
  | Some err =>
      mkSubscribed None
        (Some (wrapError
                 ("subscribe to " ++ formatNames names ++ " events: "
                    ++ Error err)%string err))
        t
  | None =>
      let t := t ++ [MakeChan chOut; MakeChan chJobs; NewTriggers;
                     MakeChan chDone; Go goRemoveTriggers] in
      match projection.Startup cfg with
      | Some _ =>
          match applyStartupJob env cfg with
          | Some err =>
              mkSubscribed None
                (Some (wrapError ("startup: " ++ Error err)%string err))
                (t ++ [ApplyStartupJob])
          | None => startTasks (t ++ [ApplyStartupJob])
          end
      | None => startTasks t
      end
  end.

(** The goroutines started by the time [Subscribe] returns. *)
Definition started (r : Subscribed) : list Goroutine :=
  flat_map (fun e => match e with Go g => [g] | _ => [] end) (trace r).

(* ===================================================================== *)
(** * [handleEvents] as a whole *)
(* ===================================================================== *)

(** Which case of the [select] of [fail] (lines 200-203) ran. *)
Inductive FailSelected := FailCtxDone | ErrSent.

(** Lines 199-204: [fail] puts the error on [out] unless the context is
    done first; [out] is the list of the errors this task has put on the
    channel, oldest first. *)
Definition fail (o : FailSelected) (e : error) (out : list error) : list error :=
  match o with
  | FailCtxDone => out
  | ErrSent => out ++ [e]
  end.

(** Modelled from the spec: [streams.ForEach], which is not in this file,
    calls its two callbacks strictly one after the other, [addEvent] for an
    event of the feed and [fail] for an error of the feed.  Between two such
    calls a timer may expire and its callback run [createJob]; here each
    callback runs to its return before the next call. *)
Inductive Occurrence :=
  | FeedEvent (at_ : time.Instant) (evt : event.Event) (o : Selected)
  | FeedError (e : error) (o : FailSelected)
  | TimerFires (at_ : time.Instant) (r : nat) (o : Selected).

(** The runtime expires timer [r]: only an armed timer whose instant has
    come can fire. *)
Definition fire (r : nat) (w : World) : option World :=
  match timers w !! r with
  | Some (time.mkTimer at_ time.Armed) =>
      if at_ <=? now w
      then Some (setTimers (<[r := time.mkTimer at_ time.Fired]> (timers w)) w)
      else None
  | _ => None
  end.

(** What the task has done so far: the world of the closures and the
    errors put on [out]. *)
Record Task := mkTask { tWorld : World; tOut : list error }.

(** One occurrence; [None] when it cannot happen where it stands (the clock
    would run backwards, or the timer cannot fire). *)
Definition occur (schedule : Continuous.t) (sub : projection.Subscription)
    (x : Occurrence) (t : Task) : option Task :=
  let w := tWorld t in
  match x with
  | FeedEvent at_ evt o =>
      if at_ <? now w then None
      else Some (mkTask (addEvent schedule sub o evt (setNow at_ w)) (tOut t))
  | FeedError e o => Some (mkTask w (fail o e (tOut t)))
  | TimerFires at_ r o =>
      if at_ <? now w then None
      else match fire r (setNow at_ w) with
           | Some w' => Some (mkTask (createJob sub o w') (tOut t))
           | None => None
           end
  end.

Fixpoint occurAll (schedule : Continuous.t) (sub : projection.Subscription)
    (xs : list Occurrence) (t : Task) : option Task :=
  match xs with
  | [] => Some t
  | x :: xs' =>
      match occur schedule sub x t with
      | Some t' => occurAll schedule sub xs' t'
      | None => None
      end
  end.

(** What [handleEvents] leaves when it returns: the world, the errors it
    put on [out], and how often it called [wg.Done()]. *)
Record Finished := mkFinished {
  fWorld : World;
  fOut : list error;
  fWgDone : nat
}.

(** Lines 188-280: fresh variables (lines 206-209), then [streams.ForEach]
    until the feed ends or the context is done, then the deferred calls in
    reverse order: [clearDebounce()] of line 228, then [wg.Done()] of line
    197. *)
Definition handleEvents (schedule : Continuous.t)
    (sub : projection.Subscription) (t0 : time.Instant)
    (xs : list Occurrence) : option Finished :=
  match occurAll schedule sub xs (mkTask (initWorld t0) []) with
  | Some t => Some (mkFinished (clearDebounce (tWorld t)) (tOut t) 1)
  | None => None
  end.

(** The events of the feed, in order. *)
Definition feedEvents (xs : list Occurrence) : list event.Event :=
  flat_map (fun x => match x with
                     | FeedEvent _ evt _ => [evt]
                     | _ => []
                     end) xs.



(** No timer is armed. *)
Definition noneArmed (w : World) : Prop :=
  forall r t, timers w !! r = Some t -> time.status t <> time.Armed.

(** Both timer variables are nil. *)
Definition handlesNil (w : World) : Prop :=
  Locals.debounce (vars w) = None /\ Locals.debounceCap (vars w) = None.

(** What holds between two uninterrupted calls of the closures: armed
    timers are pointed to, [jobCreated] is unset, a timer variable is set
    only while the buffer holds an event, and no Job is empty. *)
Definition settled (w : World) : Prop :=
  armedAreHeld w /\
  Locals.jobCreated (vars w) = false /\
  (Locals.buf (vars w) = [] -> handlesNil w) /\
  Forall (fun j => jobEvents j <> []) (created w).

(** In an interleaving: armed timers are pointed to, and while [addEvent]
    stands between its [clearDebounce] and its end both timer variables are
    nil. *)
Definition timersHeld (s : System) : Prop :=
  armedAreHeld (world s) /\
  match loop s with
  | Waiting | AtClear _ => True
  | _ => handlesNil (world s)
  end.

(** [mux] is held exactly while one invocation of [createJob] stands at its
    [select]. *)
Definition exclusive (m : bool) (sel : list projection.Job) : Prop :=
  if m then exists job, sel = [job] else sel = [].

(** No [select] of the schedule takes [ctx.Done()]. *)
Definition takesSend (a : Action) : bool :=
  match a with
  | Loop CtxDone | Callback _ CtxDone => false
  | _ => true
  end.

(** How the Jobs sent relate to the Jobs built: in order and without
    repetition ([strict = false]), or all of them ([strict = true]); the
    Job of the invocation at the [select], the last one built, is still to
    be sent. *)
Definition sentOf (strict : bool) (s c : list projection.Job) : Prop :=
  if strict then s = c else sublist s c.

Definition delivers (strict : bool) (m : bool) (sel : list projection.Job)
    (w : World) : Prop :=
  if m then
    exists job c0, sel = [job] /\ created w = c0 ++ [job] /\
                   sentOf strict (sent w) c0
  else
    sel = [] /\ sentOf strict (sent w) (created w).

(** [streams.ForEach] returns between two calls of [addEvent];
    [handleEvents] then runs the deferred [clearDebounce] of line 228, which
    takes [mux], and ends.  The callbacks of timers that have fired go
    on. *)
Definition returnHandleEvents (s : System) : option System :=
  match loop s with
  | Waiting =>
      if mux s then None
      else Some (mkSystem (clearDebounce (world s)) false Waiting (callbacks s))
  | _ => None
  end.

(** What can still happen once [handleEvents] has returned: the clock, the
    timers and the callbacks, not the event goroutine. *)
Definition afterReturn (a : Action) : bool :=
  match a with
  | Receive _ | Loop _ => false
  | _ => true
  end.

(* ===================================================================== *)
(** * Configuration: options and the cap heuristic *)
(* ===================================================================== *)

Lemma wrap64_id z : time.isInt64 z -> time.wrap64 z = z.
Proof.
  unfold time.isInt64, time.minInt64, time.maxInt64, time.wrap64.
  intros H. rewrite Z.mod_small; lia.
Qed.

(** [computeDebounceCap] reads the three fields and nothing else. *)
Lemma computeDebounceCap_unfold names d c o :
  computeDebounceCap (Continuous.mk names d c o) =
    if c <=? 0 then 0
    else if o then c
    else if d <=? 2500000000 then c
    else time.wrap64 (d * 2).
Proof. reflexivity. Qed.

(** Folding options over a schedule: each field ends up with the argument
    of the last option that writes it, or keeps its initial value. *)
Lemma fold_options ks : forall c0,
  let c := fold_left (fun c opt => opt c) (map toOption ks) c0 in
  Continuous.eventNames c = Continuous.eventNames c0 /\
  Continuous.debounce c = default (Continuous.debounce c0) (lastDebounce ks) /\
  Continuous.debounceCap c =
    default (Continuous.debounceCap c0) (lastDebounceCap ks) /\
  Continuous.debounceCapManuallySet c =
    match lastDebounceCap ks with
    | Some _ => true
    | None => Continuous.debounceCapManuallySet c0
    end.
Proof.
  induction ks as [|k ks IH]; intros c0; [easy|].
  cbn [map fold_left lastDebounce lastDebounceCap].
  destruct (IH (toOption k c0)) as (Hn & Hd & Hc & Hm).
  cbv zeta in *. rewrite Hn, Hd, Hc, Hm.
  destruct k, (lastDebounce ks), (lastDebounceCap ks); easy.
Qed.

(** C8. [Debounce d] writes the debounce duration and nothing else;
    [DebounceCap d] writes the cap and sets the override flag, and nothing
    else; without options the debounce duration is 0, the cap is the
    package default and the flag is unset; and for any list of options
    given to [Continuously], each field holds the argument of the last
    option of its kind. *)
Theorem options_last_write_wins :
  (forall d c,
     Continuous.debounce (Debounce d c) = d /\
     Continuous.debounceCap (Debounce d c) = Continuous.debounceCap c /\
     Continuous.debounceCapManuallySet (Debounce d c) =
       Continuous.debounceCapManuallySet c /\
     Continuous.eventNames (Debounce d c) = Continuous.eventNames c) /\
  (forall d c,
     Continuous.debounceCap (DebounceCap d c) = d /\
     Continuous.debounceCapManuallySet (DebounceCap d c) = true /\
     Continuous.debounce (DebounceCap d c) = Continuous.debounce c /\
     Continuous.eventNames (DebounceCap d c) = Continuous.eventNames c) /\
  (forall pv names,
     Continuously pv names [] =
       Continuous.mk names 0 (DefaultDebounceCap pv) false) /\
  (forall pv names ks,
     let c := Continuously pv names (map toOption ks) in
     Continuous.debounce c = default 0 (lastDebounce ks) /\
     Continuous.debounceCap c =
       default (DefaultDebounceCap pv) (lastDebounceCap ks) /\
     Continuous.debounceCapManuallySet c = bool_decide (is_Some (lastDebounceCap ks))) /\
  (forall pv names ks d,
     Continuous.debounce
       (Continuously pv names (map toOption (ks ++ [KDebounce d]))) = d) /\
  (forall pv names ks d,
     Continuous.debounceCap
       (Continuously pv names (map toOption (ks ++ [KDebounceCap d]))) = d).
Proof.
  split; [intros; repeat split|].
  split; [intros; repeat split|].
  split; [reflexivity|].
  split; [|split].
  - intros pv names ks c. subst c. unfold Continuously.
    destruct (fold_options ks (Continuous.mk names 0 (DefaultDebounceCap pv) false))
      as (_ & Hd & Hc & Hm). cbv zeta in Hm.
    rewrite Hd, Hc, Hm. repeat split.
    destruct (lastDebounceCap ks); reflexivity.
  - intros. unfold Continuously. rewrite map_app, fold_left_app. reflexivity.
  - intros. unfold Continuously. rewrite map_app, fold_left_app. reflexivity.
Qed.

(** C2, as stated, fails: a schedule whose cap field is 7s without the
    override flag (built by [Continuously] after the package variable was
    set to 7s) and whose debounce is 1s gets 7s, not 5s. *)
Lemma computeDebounceCap_not_always_5s :
  let s := Continuously (mkVars (7 * time.Second)) []
             [Debounce (1 * time.Second)] in
  Continuous.debounce s = 1 * time.Second /\
  Continuous.debounceCap s = 7 * time.Second /\
  Continuous.debounceCapManuallySet s = false /\
  computeDebounceCap s = 7 * time.Second /\
  specDebounceCap (1 * time.Second) (7 * time.Second) false = 5 * time.Second /\
  computeDebounceCap s <>
    specDebounceCap (Continuous.debounce s) (Continuous.debounceCap s)
                    (Continuous.debounceCapManuallySet s).
Proof. vm_compute. repeat split; discriminate. Qed.

(** C2, amended. For every schedule, [computeDebounceCap] returns 0 if the
    cap field is <= 0; the cap field if the override flag is set; the cap
    field again if the debounce is <= 2.5s; and otherwise the debounce times
    two in [int64] arithmetic, which is the exact double while the debounce
    is at most [maxInt64 / 2].  It agrees with the specification's function
    whenever the cap field is 5s, the flag is set or the cap is <= 0, so on
    every schedule built by [Continuously] from the initial package
    variables; the four examples of the specification hold. *)
Theorem computeDebounceCap_cases :
  (forall names d c o,
     computeDebounceCap (Continuous.mk names d c o) =
       if c <=? 0 then 0
       else if o then c
       else if d <=? 2500 * time.Millisecond then c
       else time.wrap64 (d * 2)) /\
  (forall names d c o,
     d <= time.maxInt64 / 2 ->
     c <= 0 \/ o = true \/ c = 5 * time.Second ->
     computeDebounceCap (Continuous.mk names d c o) = specDebounceCap d c o) /\
  (forall names ks,
     let s := Continuously initVars names (map toOption ks) in
     Continuous.debounce s <= time.maxInt64 / 2 ->
     computeDebounceCap s =
       specDebounceCap (Continuous.debounce s) (Continuous.debounceCap s)
                       (Continuous.debounceCapManuallySet s)) /\
  (forall names,
     computeDebounceCap
       (Continuous.mk names (1 * time.Second) (5 * time.Second) false)
       = 5 * time.Second /\
     computeDebounceCap
       (Continuous.mk names (3 * time.Second) (5 * time.Second) false)
       = 6 * time.Second /\
     computeDebounceCap
       (Continuous.mk names (3 * time.Second) (10 * time.Second) true)
       = 10 * time.Second /\
     computeDebounceCap
       (Continuous.mk names (1 * time.Second) 0 false) = 0).
Proof.
  assert (Hspec : forall names d c o,
     d <= time.maxInt64 / 2 ->
     c <= 0 \/ o = true \/ c = 5 * time.Second ->
     computeDebounceCap (Continuous.mk names d c o) = specDebounceCap d c o).
  { intros names d c o Hd Hc.
    rewrite computeDebounceCap_unfold. unfold specDebounceCap.
    change (2500 * time.Millisecond) with 2500000000.
    change (5 * time.Second) with 5000000000 in *.
    change (time.maxInt64 / 2) with 4611686018427387903 in Hd.
    destruct (Z.leb_spec c 0); [reflexivity|].
    destruct o; [reflexivity|].
    destruct (Z.leb_spec d 2500000000).
    - destruct Hc as [Hc|[Hc|Hc]]; [lia|discriminate|exact Hc].
    - apply wrap64_id.
      unfold time.isInt64, time.minInt64, time.maxInt64. lia. }
  split; [reflexivity|]. split; [exact Hspec|]. split.
  - intros names ks s Hd.
    destruct (fold_options ks
                (Continuous.mk names 0 (DefaultDebounceCap initVars) false))
      as (_ & _ & Hc & Hm).
    fold (Continuously initVars names (map toOption ks)) in Hc, Hm.
    fold s in Hc, Hm. cbv zeta in Hc, Hm.
    destruct s as [n d c o]. cbn [Continuous.debounce Continuous.debounceCap
      Continuous.debounceCapManuallySet] in *.
    apply Hspec; [exact Hd|].
    destruct (lastDebounceCap ks); cbn in Hc, Hm; subst; auto.
  - intros names. repeat split.
Qed.

(** The amended C2 at concrete schedules: the second part at 3s / 5s, the
    third at a schedule built with [Debounce(3s)]. *)
Lemma computeDebounceCap_cases_witness :
  computeDebounceCap
    (Continuous.mk [] (3 * time.Second) (5 * time.Second) false)
    = specDebounceCap (3 * time.Second) (5 * time.Second) false /\
  computeDebounceCap
    (Continuously initVars [] (map toOption [KDebounce (3 * time.Second)]))
    = 6 * time.Second.
Proof.
  pose proof computeDebounceCap_cases as (_ & H2 & H3 & _).
  split.
  - apply H2.
    + vm_compute. discriminate.
    + right. right. reflexivity.
  - apply (H3 [] [KDebounce (3 * time.Second)]).
    vm_compute. discriminate.
Defined.

(* ===================================================================== *)
(** * The closures, run without interruption *)
(* ===================================================================== *)

Lemma Stop_not_armed t : time.status (time.Stop t) <> time.Armed.
Proof. destruct t as [a []]; discriminate. Qed.

Lemma Stop_idem t : time.Stop (time.Stop t) = time.Stop t.
Proof. destruct t as [a []]; reflexivity. Qed.

Lemma Stop_unarmed t : time.status t <> time.Armed -> time.Stop t = t.
Proof. destruct t as [a []]; easy. Qed.

Lemma stopIfSet_length p ts : length (stopIfSet p ts) = length ts.
Proof. destruct p; [apply length_alter | reflexivity]. Qed.

Lemma stopIfSet_lookup_held r ts :
  stopIfSet (Some r) ts !! r = time.Stop <$> ts !! r.
Proof. cbn. apply list_lookup_alter_eq. Qed.

Lemma stopIfSet_lookup_other p r ts :
  p <> Some r -> stopIfSet p ts !! r = ts !! r.
Proof.
  destruct p as [q|]; [|reflexivity]. intros H. cbn.
  apply list_lookup_alter_ne. congruence.
Qed.

(** A lookup after [stopIfSet] finds the old timer, stopped or untouched. *)
Lemma stopIfSet_lookup p r ts t :
  stopIfSet p ts !! r = Some t ->
  exists t0, ts !! r = Some t0 /\
    ((p = Some r /\ t = time.Stop t0) \/ (p <> Some r /\ t = t0)).
Proof.
  destruct (decide (p = Some r)) as [->|Hne].
  - rewrite stopIfSet_lookup_held. destruct (ts !! r) as [t0|]; [|discriminate].
    cbn. intros [= <-]. eauto.
  - rewrite stopIfSet_lookup_other by exact Hne. eauto.
Qed.

Lemma clearDebounce_vars w :
  vars (clearDebounce w) = Locals.mk (Locals.buf (vars w)) None None false.
Proof. reflexivity. Qed.

Lemma clearDebounce_length w :
  length (timers (clearDebounce w)) = length (timers w).
Proof. cbn. now rewrite !stopIfSet_length. Qed.

(** After [clearDebounce], a timer that one of the two variables pointed to
    is not armed. *)
Lemma clearDebounce_stops w r t :
  Locals.debounce (vars w) = Some r \/ Locals.debounceCap (vars w) = Some r ->
  timers (clearDebounce w) !! r = Some t -> time.status t <> time.Armed.
Proof.
  intros Hheld Hl. cbn in Hl.
  apply stopIfSet_lookup in Hl as (t1 & Hl & Hc).
  apply stopIfSet_lookup in Hl as (t0 & _ & Hd).
  destruct Hc as [[_ ->]|[Hc ->]]; [apply Stop_not_armed|].
  destruct Hd as [[_ ->]|[Hd ->]]; [apply Stop_not_armed|].
  destruct Hheld; congruence.
Qed.

(** [clearDebounce] arms nothing: a timer armed after it was armed before. *)
Lemma clearDebounce_armed w r t :
  timers (clearDebounce w) !! r = Some t -> time.status t = time.Armed ->
  timers w !! r = Some t /\
  Locals.debounce (vars w) <> Some r /\ Locals.debounceCap (vars w) <> Some r.
Proof.
  intros Hl Ha. cbn in Hl.
  apply stopIfSet_lookup in Hl as (t1 & Hl & Hc).
  apply stopIfSet_lookup in Hl as (t0 & Hl & Hd).
  destruct Hc as [[_ ->]|[Hc ->]]; [now apply Stop_not_armed in Ha|].
  destruct Hd as [[_ ->]|[Hd ->]]; [now apply Stop_not_armed in Ha|].
  auto.
Qed.

Lemma createJob_locked_handles sub o w :
  Locals.debounce (vars (createJob_locked sub o w)) = Locals.debounce (vars w) /\
  Locals.debounceCap (vars (createJob_locked sub o w)) = Locals.debounceCap (vars w) /\
  timers (createJob_locked sub o w) = timers w /\
  now (createJob_locked sub o w) = now w.
Proof.
  unfold createJob_locked, createJob_snapshot.
  destruct (Locals.jobCreated (vars w)); repeat split.
Qed.

(** The guard at lines 236-238: with [jobCreated] set, the locked part of
    [createJob] changes nothing: no Job is built, nothing is sent and the
    buffer is as it was. *)
Lemma createJob_locked_guard sub o w :
  Locals.jobCreated (vars w) = true -> createJob_locked sub o w = w.
Proof.
  intros H. unfold createJob_locked, createJob_snapshot. now rewrite H.
Qed.

(** [createJob] is its frame run from [mux.Lock()] to the return with
    [mux] free and no other goroutine in between. *)
Lemma createJob_runFrame sub o w :
  runFrame 3 sub o AtLock false w = Some (false, createJob sub o w).
Proof.
  unfold createJob, createJob_locked. cbn.
  destruct (createJob_snapshot sub w) as [[job w']|]; reflexivity.
Qed.

(** C5. With [jobCreated] unset, the locked part of [createJob] builds a Job
    from a copy of the buffer's contents, in a store read with the query
    that sorts by time, ascending; the Job enters the channel when the
    [select] takes the send and does not when it takes [ctx.Done()]; in
    both cases the buffer ends empty and [jobCreated] set, and the timers
    and the two timer variables are untouched.  As statements: the Job is
    built while [mux] is taken, and [mux] is held until after the two
    assignments that follow the [select], which empty the buffer and set
    [jobCreated] whatever the buffer holds by then. *)
Theorem createJob_locked_creates sub o w :
  Locals.jobCreated (vars w) = false ->
  let job := projection.mkJob sub (eventstore.New (Locals.buf (vars w)))
               (query.New [query.SortBy event.SortTime event.SortAsc]) in
  let sent' := match o with
               | JobSent => sent w ++ [job]
               | CtxDone => sent w
               end in
  let w' := mkWorld
              (Locals.mk [] (Locals.debounce (vars w))
                         (Locals.debounceCap (vars w)) true)
              (timers w) (now w) (created w ++ [job]) sent' in
  createJob_locked sub o w = w' /\
  jobEvents job = Locals.buf (vars w) /\
  (exists w1,
     stepFrame sub o AtLock false w = Some (AtSelect job, true, w1) /\
     Locals.buf (vars w1) = Locals.buf (vars w) /\
     stepFrame sub o (AtSelect job) true w1 = Some (AtDeferredClear, false, w')) /\
  (forall w2,
     Locals.buf (vars (createJob_deliver o job w2)) = [] /\
     Locals.jobCreated (vars (createJob_deliver o job w2)) = true /\
     sent (createJob_deliver o job w2) =
       match o with
       | JobSent => sent w2 ++ [job]
       | CtxDone => sent w2
       end).
Proof.
  intros Hflag job sent' w'.
  unfold createJob_locked, createJob_snapshot. cbn [stepFrame].
  unfold createJob_snapshot. rewrite Hflag.
  split; [destruct o; reflexivity|]. split; [reflexivity|]. split.
  - eexists. split; [reflexivity|]. split; [reflexivity|].
    destruct o; reflexivity.
  - intros w2. destruct o; repeat split.
Qed.

(** C5 at a buffer of two events, for both cases of the [select]. *)
Lemma createJob_locked_creates_witness :
  let e1 := event.mkEvent 1 "foo" 20 in
  let e2 := event.mkEvent 2 "bar" 10 in
  let sub := projection.mkSubscription None in
  let w := mkWorld (Locals.mk [e1; e2] (Some 0%nat) (Some 1%nat) false)
             [time.mkTimer 5 time.Armed; time.mkTimer 9 time.Armed] 3 [] [] in
  (Locals.buf (vars (createJob_locked sub JobSent w)) = [] /\
   Locals.jobCreated (vars (createJob_locked sub JobSent w)) = true /\
   map jobEvents (sent (createJob_locked sub JobSent w)) = [[e1; e2]]) /\
  (Locals.buf (vars (createJob_locked sub CtxDone w)) = [] /\
   Locals.jobCreated (vars (createJob_locked sub CtxDone w)) = true /\
   map jobEvents (created (createJob_locked sub CtxDone w)) = [[e1; e2]] /\
   sent (createJob_locked sub CtxDone w) = []).
Proof.
  intros e1 e2 sub w.
  destruct (createJob_locked_creates sub JobSent w eq_refl) as (H1 & _).
  destruct (createJob_locked_creates sub CtxDone w eq_refl) as (H2 & _).
  rewrite H1, H2. repeat split.
Defined.

(** C6. With a debounce duration <= 0, one call of [addEvent] returns only
    after [createJob] has built one Job holding the whole buffer, the new
    event last; it has been sent unless the [select] took [ctx.Done()]; the
    buffer is empty again, no timer was created and none is armed that was
    not armed before.  So a feed processed from the start yields one Job per
    event, in order, each holding that event alone; and in no interleaving
    is there ever a timer or a callback goroutine. *)
Theorem addEvent_without_debounce schedule sub :
  Continuous.debounce schedule <= 0 ->
  (forall o evt w,
     let job := jobOf sub (Locals.buf (vars w) ++ [evt]) in
     let w' := addEvent schedule sub o evt w in
     created w' = created w ++ [job] /\
     sent w' = match o with
               | JobSent => sent w ++ [job]
               | CtxDone => sent w
               end /\
     vars w' = Locals.mk [] None None false /\
     length (timers w') = length (timers w) /\
     (forall r t, timers w' !! r = Some t -> time.status t = time.Armed ->
        timers w !! r = Some t)) /\
  (forall t0 arrivals,
     let w' := feed schedule sub JobSent arrivals (initWorld t0) in
     map jobEvents (sent w') = map (fun a => [snd a]) arrivals /\
     sent w' = created w' /\
     vars w' = Locals.init /\
     timers w' = []) /\
  (forall t0 acts s,
     run schedule sub acts (initSystem t0) = Some s ->
     timers (world s) = [] /\ callbacks s = [] /\ loop s <> AtArm).
Proof.
  intros Hd. apply Z.leb_le in Hd.
  assert (Hone : forall o evt w,
     let job := jobOf sub (Locals.buf (vars w) ++ [evt]) in
     let w' := addEvent schedule sub o evt w in
     created w' = created w ++ [job] /\
     sent w' = match o with
               | JobSent => sent w ++ [job]
               | CtxDone => sent w
               end /\
     vars w' = Locals.mk [] None None false /\
     timers w' = timers (clearDebounce w)).
  { intros o evt w. cbv zeta. unfold addEvent. rewrite Hd.
    unfold createJob, createJob_locked, createJob_snapshot.
    cbn. destruct o; repeat split. }
  split; [|split].
  - intros o evt w job w'.
    destruct (Hone o evt w) as (Hc & Hs & Hv & Ht).
    fold w' in Hc, Hs, Hv, Ht. fold job in Hc, Hs.
    repeat split; try assumption.
    + rewrite Ht. apply clearDebounce_length.
    + intros r t Hl Ha. rewrite Ht in Hl.
      now apply clearDebounce_armed in Hl as (Hl & _).
  - intros t0 arrivals. unfold feed.
    enough (G : forall w,
      vars w = Locals.init -> timers w = [] -> sent w = created w ->
      let w' := fold_left
                  (fun w a => addEvent schedule sub JobSent (snd a) (setNow (fst a) w))
                  arrivals w in
      map jobEvents (sent w') =
        map jobEvents (sent w) ++ map (fun a => [snd a]) arrivals /\
      sent w' = created w' /\ vars w' = Locals.init /\ timers w' = []).
    { apply (G (initWorld t0)); reflexivity. }
    induction arrivals as [|a arrivals IH]; intros w Hv Ht Hs.
    + cbn. rewrite app_nil_r. auto.
    + cbn [fold_left].
      destruct (Hone JobSent (snd a) (setNow (fst a) w)) as (Hc' & Hs' & Hv' & Ht').
      cbv zeta in IH.
      destruct (IH (addEvent schedule sub JobSent (snd a) (setNow (fst a) w)))
        as (I1 & I2 & I3 & I4).
      * exact Hv'.
      * rewrite Ht'. cbn. rewrite Hv, Ht. reflexivity.
      * rewrite Hs', Hc'. cbn. now rewrite Hs.
      * cbv zeta. rewrite I1, I2, I3, I4. repeat split.
        rewrite Hs'. cbn [sent setNow vars]. rewrite Hv. cbn.
        rewrite map_app, <- app_assoc. reflexivity.
  - intros t0 acts.
    enough (G : forall s0 s,
      timers (world s0) = [] /\ callbacks s0 = [] /\ loop s0 <> AtArm ->
      run schedule sub acts s0 = Some s ->
      timers (world s) = [] /\ callbacks s = [] /\ loop s <> AtArm).
    { intros s. apply G. repeat split. discriminate. }
    induction acts as [|a acts IH]; intros s0 s Hinv Hrun.
    + cbn in Hrun. now inversion Hrun; subst.
    + cbn [run] in Hrun.
      destruct (step schedule sub a s0) as [s1|] eqn:Hstep; [|discriminate].
      apply (IH s1 s); [|exact Hrun]. clear IH Hrun.
      destruct Hinv as (Ht & Hc & Hl).
      destruct s0 as [w m l cbs]. cbn in Ht, Hc, Hl. subst cbs.
      destruct a as [d|evt|o|r|i o]; cbn in Hstep.
      * destruct (d <? 0); [discriminate|]. inversion Hstep; subst; cbn.
        repeat split; assumption.
      * destruct l; try discriminate. inversion Hstep; subst; cbn.
        repeat split; [assumption|discriminate].
      * destruct l as [|evt|evt|f|]; try discriminate.
        -- destruct m; [discriminate|]. inversion Hstep; subst; cbn.
           rewrite Ht. destruct (Locals.debounce (vars w)), (Locals.debounceCap (vars w));
             repeat split; discriminate.
        -- rewrite Hd in Hstep. inversion Hstep; subst; cbn.
           repeat split; [assumption|discriminate].
        -- destruct f; cbn in Hstep.
           ++ destruct m; [discriminate|]. unfold createJob_snapshot in Hstep.
              destruct (Locals.jobCreated (vars w)); inversion Hstep; subst; cbn;
                repeat split; try assumption; discriminate.
           ++ inversion Hstep; subst; cbn. repeat split; [assumption|discriminate].
           ++ destruct m; [discriminate|]. inversion Hstep; subst; cbn.
              rewrite Ht. destruct (Locals.debounce (vars w)), (Locals.debounceCap (vars w));
                repeat split; discriminate.
           ++ discriminate.
        -- now contradiction Hl.
      * rewrite Ht in Hstep. discriminate.
      * discriminate.
Qed.

(** C6 at a concrete feed of two events with debouncing off. *)
Lemma addEvent_without_debounce_witness :
  let schedule := Continuously initVars ["foo"%string] [] in
  let sub := projection.mkSubscription None in
  let e1 := event.mkEvent 1 "foo" 10 in
  let e2 := event.mkEvent 2 "foo" 20 in
  let acts := [Receive e1; Loop JobSent; Loop JobSent; Loop JobSent;
               Loop JobSent; Loop JobSent; Receive e2] in
  Continuous.debounce schedule <= 0 /\
  map jobEvents (sent (feed schedule sub JobSent [(10, e1); (20, e2)] (initWorld 0)))
    = [[e1]; [e2]] /\
  timers (feed schedule sub JobSent [(10, e1); (20, e2)] (initWorld 0)) = [] /\
  created (addEvent schedule sub CtxDone e1 (initWorld 0)) = [jobOf sub [e1]] /\
  sent (addEvent schedule sub CtxDone e1 (initWorld 0)) = [] /\
  exists s,
    run schedule sub acts (initSystem 0) = Some s /\
    sent (world s) = [jobOf sub [e1]] /\
    loop s = AtClear e2 /\
    timers (world s) = [] /\ callbacks s = [].
Proof.
  intros schedule sub e1 e2 acts.
  assert (Hd : Continuous.debounce schedule <= 0) by (vm_compute; discriminate).
  split; [exact Hd|].
  destruct (addEvent_without_debounce schedule sub Hd) as (Hone & Hfeed & Hrun).
  destruct (Hfeed 0 [(10, e1); (20, e2)]) as (Hs & _ & _ & Ht).
  split; [exact Hs|]. split; [exact Ht|].
  destruct (Hone CtxDone e1 (initWorld 0)) as (Hc1 & Hs1 & _).
  split; [exact Hc1|]. split; [exact Hs1|].
  destruct (run schedule sub acts (initSystem 0)) as [s|] eqn:E;
    [|vm_compute in E; discriminate].
  exists s. destruct (Hrun 0 acts s E) as (Ht' & Hc' & _).
  split; [reflexivity|].
  split; [vm_compute in E; inversion E; reflexivity|].
  split; [vm_compute in E; inversion E; reflexivity|].
  split; [exact Ht' | exact Hc'].
Defined.

(** With debouncing on and a positive cap, [addEvent] in one equation. *)
Lemma addEvent_debounced schedule sub o evt w :
  0 < Continuous.debounce schedule ->
  0 < computeDebounceCap schedule ->
  addEvent schedule sub o evt w =
    mkWorld
      (Locals.mk (Locals.buf (vars w) ++ [evt])
                 (Some (length (timers w))) (Some (S (length (timers w)))) false)
      (timers (clearDebounce w) ++
         [time.mkTimer (now w + Continuous.debounce schedule) time.Armed;
          time.mkTimer (now w + computeDebounceCap schedule) time.Armed])
      (now w) (created w) (sent w).
Proof.
  intros Hd Hc. unfold addEvent, armTimers, AfterFunc.
  destruct (Z.leb_spec (Continuous.debounce schedule) 0) as [?|_]; [lia|].
  destruct (Z.ltb_spec 0 (computeDebounceCap schedule)) as [_|?]; [|lia].
  cbn -[clearDebounce]. rewrite !length_app, clearDebounce_length.
  rewrite !Z.max_r by lia. cbn [length]. rewrite <- app_assoc.
  replace (length (timers w) + 1)%nat with (S (length (timers w))) by lia.
  reflexivity.
Qed.

Lemma rearmedAt_held schedule t w : rearmedAt schedule t w -> armedAreHeld w.
Proof.
  intros (rd & rc & Hd & Hc & _ & _ & Hall) r tm Hl Ha.
  destruct (Hall r tm Hl Ha) as [->| ->]; auto.
Qed.

Lemma addEvent_rearmedAt schedule sub o evt w :
  0 < Continuous.debounce schedule ->
  0 < computeDebounceCap schedule ->
  armedAreHeld w ->
  rearmedAt schedule (now w) (addEvent schedule sub o evt w).
Proof.
  intros Hd Hc Hheld. rewrite addEvent_debounced by assumption.
  exists (length (timers w)), (S (length (timers w))). cbn [vars timers].
  pose proof (clearDebounce_length w) as Hlen.
  repeat split.
  - rewrite lookup_app_r by lia. now rewrite Hlen, Nat.sub_diag.
  - rewrite lookup_app_r by lia.
    rewrite Hlen. now replace (S (length (timers w)) - length (timers w))%nat with 1%nat by lia.
  - intros r tm Hl Ha.
    destruct (decide (r < length (timers w))%nat) as [Hlt|Hge].
    + rewrite lookup_app_l in Hl by lia.
      apply clearDebounce_armed in Hl as (Hl & Hn1 & Hn2); [|exact Ha].
      destruct (Hheld r tm Hl Ha); contradiction.
    + apply lookup_lt_Some in Hl. rewrite length_app, Hlen in Hl.
      cbn [length] in Hl.
      assert (r = length (timers w) \/ r = S (length (timers w))) by lia.
      assumption.
Qed.

Lemma last_cons_default {A} (l : list A) : forall b d d',
  List.last (b :: l) d = List.last (b :: l) d'.
Proof.
  induction l as [|c l IH]; intros b d d'; [reflexivity|].
  change (List.last (b :: c :: l) d) with (List.last (c :: l) d).
  change (List.last (b :: c :: l) d') with (List.last (c :: l) d').
  apply IH.
Qed.

Lemma feed_rearmedAt schedule sub o arrivals : forall a w,
  0 < Continuous.debounce schedule ->
  0 < computeDebounceCap schedule ->
  armedAreHeld w ->
  rearmedAt schedule (fst (List.last (a :: arrivals) a))
            (feed schedule sub o (a :: arrivals) w).
Proof.
  induction arrivals as [|b arrivals IH]; intros a w Hd Hc Hheld.
  - cbn. apply (addEvent_rearmedAt schedule sub o (snd a) (setNow (fst a) w));
      assumption.
  - change (feed schedule sub o (a :: b :: arrivals) w)
      with (feed schedule sub o (b :: arrivals)
              (addEvent schedule sub o (snd a) (setNow (fst a) w))).
    replace (List.last (a :: b :: arrivals) a)
      with (List.last (b :: arrivals) b).
    + apply IH; try assumption.
      eapply rearmedAt_held.
      apply (addEvent_rearmedAt schedule sub o (snd a) (setNow (fst a) w));
        assumption.
    + change (List.last (a :: b :: arrivals) a)
        with (List.last (b :: arrivals) a).
      apply last_cons_default.
Qed.

(** X15. With a positive debounce and a positive computed cap, one call of
    [addEvent] that no other goroutine interrupts leaves every timer the two
    variables pointed to not armed,
    makes the variables point to two timers created by this call, armed to
    expire the debounce, respectively the computed cap, after the call, and
    creates no Job.  So after a burst of events, processed with no timer
    expiring and no callback running in between, the only armed timers are
    the two of the last event: the cap timer expires the cap after the most
    recent event, whatever the instant of the first. *)
Theorem addEvent_rearms_both_timers schedule sub o :
  0 < Continuous.debounce schedule ->
  0 < computeDebounceCap schedule ->
  (forall evt w,
     let w' := addEvent schedule sub o evt w in
     let n := length (timers w) in
     (forall r t,
        Locals.debounce (vars w) = Some r \/ Locals.debounceCap (vars w) = Some r ->
        (r < n)%nat ->
        timers w' !! r = Some t ->
        time.status t <> time.Armed /\
        Locals.debounce (vars w') <> Some r /\
        Locals.debounceCap (vars w') <> Some r) /\
     Locals.debounce (vars w') = Some n /\
     Locals.debounceCap (vars w') = Some (S n) /\
     timers w' !! n =
       Some (time.mkTimer (now w + Continuous.debounce schedule) time.Armed) /\
     timers w' !! S n =
       Some (time.mkTimer (now w + computeDebounceCap schedule) time.Armed) /\
     length (timers w') = S (S n) /\
     Locals.buf (vars w') = Locals.buf (vars w) ++ [evt] /\
     created w' = created w /\ sent w' = sent w) /\
  (forall t0 a arrivals,
     rearmedAt schedule (fst (List.last (a :: arrivals) a))
               (feed schedule sub o (a :: arrivals) (initWorld t0))).
Proof.
  intros Hd Hc. split.
  - intros evt w w' n. subst w' n. rewrite addEvent_debounced by assumption.
    cbn [vars timers created sent Locals.debounce Locals.debounceCap Locals.buf].
    pose proof (clearDebounce_length w) as Hlen.
    split; [|repeat split; try reflexivity].
    + intros r t Hheld Hlt Hl. rewrite lookup_app_l in Hl by lia.
      split; [now apply (clearDebounce_stops w r t)|].
      split; intros [= E]; lia.
    + rewrite lookup_app_r by lia. now rewrite Hlen, Nat.sub_diag.
    + rewrite lookup_app_r by lia. rewrite Hlen.
      now replace (S (length (timers w)) - length (timers w))%nat with 1%nat by lia.
    + rewrite length_app, Hlen. cbn. lia.
  - intros t0 a arrivals. apply feed_rearmedAt; try assumption.
    intros r t Hl. discriminate.
Qed.

(** X15 at a burst of three events half a second apart, with a debounce of
    1s and an explicit cap of 3s: the cap timer left armed expires at 4s,
    three seconds after the last event, not three seconds after the
    first. *)
Lemma addEvent_rearms_both_timers_witness :
  let schedule := Continuously initVars ["foo"%string]
                    [Debounce (1 * time.Second); DebounceCap (3 * time.Second)] in
  let sub := projection.mkSubscription None in
  let ev i := event.mkEvent i "foo" 0 in
  let burst := [(0, ev 1%nat); (500 * time.Millisecond, ev 2%nat);
                (1000 * time.Millisecond, ev 3%nat)] in
  let w1 := feed schedule sub JobSent [(0, ev 1%nat)] (initWorld 0) in
  let w2 := addEvent schedule sub JobSent (ev 2%nat)
              (setNow (500 * time.Millisecond) w1) in
  0 < Continuous.debounce schedule /\
  0 < computeDebounceCap schedule /\
  rearmedAt schedule (1000 * time.Millisecond)
            (feed schedule sub JobSent burst (initWorld 0)) /\
  Locals.debounceCap (vars w1) = Some 1%nat /\
  timers w1 !! 1%nat = Some (time.mkTimer (3 * time.Second) time.Armed) /\
  timers w2 !! 1%nat = Some (time.mkTimer (3 * time.Second) time.Stopped) /\
  time.status (time.mkTimer (3 * time.Second) time.Stopped) <> time.Armed /\
  Locals.debounceCap (vars w2) = Some 3%nat /\
  timers w2 !! 3%nat =
    Some (time.mkTimer (500 * time.Millisecond + 3 * time.Second) time.Armed).
Proof.
  intros schedule sub ev burst w1 w2.
  assert (Hd : 0 < Continuous.debounce schedule) by (vm_compute; reflexivity).
  assert (Hc : 0 < computeDebounceCap schedule) by (vm_compute; reflexivity).
  split; [exact Hd|]. split; [exact Hc|].
  destruct (addEvent_rearms_both_timers schedule sub JobSent Hd Hc)
    as (Hone & Hburst).
  split.
  { exact (Hburst 0 (0, ev 1%nat)
             [(500 * time.Millisecond, ev 2%nat);
              (1000 * time.Millisecond, ev 3%nat)]). }
  destruct (Hone (ev 2%nat) (setNow (500 * time.Millisecond) w1))
    as (Hold & _ & Hcap & _ & Hnew & _).
  assert (Hl : timers w2 !! 1%nat =
               Some (time.mkTimer (3 * time.Second) time.Stopped))
    by (vm_compute; reflexivity).
  destruct (Hold 1%nat (time.mkTimer (3 * time.Second) time.Stopped))
    as (Hst & _).
  - right. vm_compute. reflexivity.
  - vm_compute. lia.
  - exact Hl.
  - split; [vm_compute; reflexivity|]. split; [vm_compute; reflexivity|].
    split; [exact Hl|]. split; [exact Hst|].
    split; [exact Hcap | exact Hnew].
Defined.

(* ===================================================================== *)
(** * [jobCreated] across interleavings *)
(* ===================================================================== *)

Lemma armTimers_jobCreated schedule w :
  Locals.jobCreated (vars (armTimers schedule w)) = Locals.jobCreated (vars w).
Proof.
  unfold armTimers, AfterFunc.
  destruct (0 <? computeDebounceCap schedule); reflexivity.
Qed.

(** A statement of [createJob] either leaves [jobCreated] unset or leaves
    the invocation at its deferred [clearDebounce]. *)
Lemma stepFrame_flag sub o f m w f' m' w' :
  stepFrame sub o f m w = Some (f', m', w') ->
  Locals.jobCreated (vars w') = false \/ f' = AtDeferredClear.
Proof.
  destruct f; cbn; intros H.
  - destruct m; [discriminate|]. unfold createJob_snapshot in H.
    destruct (Locals.jobCreated (vars w)) eqn:E; inversion H; subst; auto.
  - inversion H; auto.
  - destruct m; [discriminate|]. inversion H; subst. now left.
  - discriminate.
Qed.

Lemma step_inProgress schedule sub a s s' :
  step schedule sub a s = Some s' ->
  (Locals.jobCreated (vars (world s)) = true -> createJobInProgress s) ->
  Locals.jobCreated (vars (world s')) = true -> createJobInProgress s'.
Proof.
  destruct s as [w m l cbs]. unfold createJobInProgress.
  destruct a as [d|evt|o|r|i o]; cbn [step world mux loop callbacks];
    intros Hstep Hinv Hflag.
  - destruct (d <? 0); [discriminate|]. inversion Hstep; subst.
    cbn [world loop callbacks] in *. auto.
  - destruct l; try discriminate. inversion Hstep; subst.
    cbn [world loop callbacks] in *.
    destruct (Hinv Hflag) as [?|?]; [discriminate|auto].
  - destruct l as [|evt|evt|f|]; try discriminate.
    + destruct m; [discriminate|]. inversion Hstep; subst. discriminate.
    + inversion Hstep; subst. cbn [world loop callbacks] in *.
      destruct (Hinv Hflag) as [?|?]; [discriminate|auto].
    + destruct (stepFrame sub o f m w) as [[[f' m'] w']|] eqn:E; [|discriminate].
      apply stepFrame_flag in E as [E| ->].
      * destruct f'; inversion Hstep; subst; cbn [world] in *; congruence.
      * inversion Hstep; subst. now left.
    + destruct m; [discriminate|]. inversion Hstep; subst.
      cbn [world loop callbacks] in *.
      rewrite armTimers_jobCreated in Hflag.
      destruct (Hinv Hflag) as [?|?]; [discriminate|auto].
  - destruct (timers w !! r) as [[at_ []]|]; try discriminate.
    destruct (at_ <=? now w); [|discriminate]. inversion Hstep; subst.
    cbn [world loop callbacks] in *.
    destruct (Hinv Hflag) as [?|[i Hi]]; [now left|right].
    exists i. rewrite lookup_app_l; [exact Hi|]. now apply lookup_lt_Some in Hi.
  - destruct (cbs !! i) as [f|] eqn:Hi; [|discriminate].
    destruct (stepFrame sub o f m w) as [[[f' m'] w']|] eqn:E; [|discriminate].
    inversion Hstep; subst. cbn [world loop callbacks] in *.
    apply stepFrame_flag in E as [E| ->]; [congruence|].
    right. exists i. apply list_lookup_insert_eq. now apply lookup_lt_Some in Hi.
Qed.

Lemma run_inProgress schedule sub acts : forall s s',
  run schedule sub acts s = Some s' ->
  (Locals.jobCreated (vars (world s)) = true -> createJobInProgress s) ->
  Locals.jobCreated (vars (world s')) = true -> createJobInProgress s'.
Proof.
  induction acts as [|a acts IH]; intros s s' Hrun Hinv.
  - cbn in Hrun. now inversion Hrun; subst.
  - cbn [run] in Hrun.
    destruct (step schedule sub a s) as [s1|] eqn:Hstep; [|discriminate].
    apply (IH s1 s' Hrun). now apply (step_inProgress schedule sub a s s1).
Qed.

(** C10. Every invocation of [createJob] that runs to its return, on the
    early-return path as on the Job-creating path, ends with [jobCreated]
    unset, both timer variables nil and the timers they pointed to not
    armed, because [clearDebounce] is its last statement; this is so too
    when other goroutines run in between.  In every interleaving,
    [jobCreated] is set only while some invocation of [createJob] stands
    between its locked part and its deferred [clearDebounce]. *)
Theorem createJob_ends_cleared :
  (forall sub o w,
     let w' := createJob sub o w in
     runFrame 3 sub o AtLock false w = Some (false, w') /\
     Locals.jobCreated (vars w') = false /\
     Locals.debounce (vars w') = None /\
     Locals.debounceCap (vars w') = None /\
     (forall r t,
        Locals.debounce (vars w) = Some r \/ Locals.debounceCap (vars w) = Some r ->
        timers w' !! r = Some t -> time.status t <> time.Armed) /\
     (Locals.jobCreated (vars w) = true -> w' = clearDebounce w)) /\
  (forall sub o m w f' m' w',
     stepFrame sub o AtDeferredClear m w = Some (f', m', w') ->
     f' = Returned /\
     Locals.jobCreated (vars w') = false /\
     Locals.debounce (vars w') = None /\
     Locals.debounceCap (vars w') = None /\
     (forall r t,
        Locals.debounce (vars w) = Some r \/ Locals.debounceCap (vars w) = Some r ->
        timers w' !! r = Some t -> time.status t <> time.Armed)) /\
  (forall schedule sub t0 acts s,
     run schedule sub acts (initSystem t0) = Some s ->
     Locals.jobCreated (vars (world s)) = true ->
     createJobInProgress s).
Proof.
  split; [|split].
  - intros sub o w w'. subst w'. split; [apply createJob_runFrame|].
    unfold createJob. repeat split.
    + intros r t Hheld Hl.
      destruct (createJob_locked_handles sub o w) as (Hd & Hc & _).
      apply (clearDebounce_stops (createJob_locked sub o w) r t); [|exact Hl].
      now rewrite Hd, Hc.
    + intros Hflag. now rewrite createJob_locked_guard.
  - intros sub o m w f' m' w' H. cbn in H.
    destruct m; [discriminate|]. inversion H; subst. repeat split.
    apply clearDebounce_stops.
  - intros schedule sub t0 acts s Hrun.
    apply (run_inProgress schedule sub acts (initSystem t0) s Hrun).
    discriminate.
Qed.

(** C10 on a run in which the debounce timer expires and its callback has
    run the locked part of [createJob]: [jobCreated] is set, and callback 0
    stands at its deferred [clearDebounce]. *)
Lemma createJob_ends_cleared_witness :
  let schedule := Continuously initVars ["foo"%string] [Debounce (1 * time.Second)] in
  let sub := projection.mkSubscription None in
  let e1 := event.mkEvent 1 "foo" 0 in
  let acts := [Receive e1; Loop JobSent; Loop JobSent; Loop JobSent;
               Elapse (1 * time.Second); Expire 0;
               Callback 0 JobSent; Callback 0 JobSent] in
  let w := mkWorld (Locals.mk [e1] (Some 0%nat) (Some 1%nat) true)
             [time.mkTimer 5 time.Fired; time.mkTimer 9 time.Armed] 5 [] [] in
  (exists s,
     run schedule sub acts (initSystem 0) = Some s /\
     Locals.jobCreated (vars (world s)) = true /\
     createJobInProgress s) /\
  createJob sub JobSent w = clearDebounce w /\
  timers (createJob sub JobSent w) !! 1%nat = Some (time.mkTimer 9 time.Stopped) /\
  time.status (time.mkTimer 9 time.Stopped) <> time.Armed /\
  stepFrame sub JobSent AtDeferredClear false w
    = Some (Returned, false, clearDebounce w) /\
  Locals.jobCreated (vars (clearDebounce w)) = false.
Proof.
  intros schedule sub e1 acts w.
  destruct createJob_ends_cleared as (Hseq & Hlast & Hinv).
  split.
  { destruct (run schedule sub acts (initSystem 0)) as [s|] eqn:Hrun;
      [|vm_compute in Hrun; discriminate].
    exists s.
    assert (Hflag : Locals.jobCreated (vars (world s)) = true).
    { vm_compute in Hrun. inversion Hrun; subst. reflexivity. }
    split; [reflexivity|]. split; [exact Hflag|].
    exact (Hinv schedule sub 0 acts s Hrun Hflag). }
  destruct (Hseq sub JobSent w) as (_ & _ & _ & _ & Hstop & Hguard).
  assert (Hl : timers (createJob sub JobSent w) !! 1%nat
               = Some (time.mkTimer 9 time.Stopped)) by reflexivity.
  split; [exact (Hguard eq_refl)|]. split; [exact Hl|].
  split; [exact (Hstop 1%nat _ (or_intror eq_refl) Hl)|].
  assert (Hstep : stepFrame sub JobSent AtDeferredClear false w
                  = Some (Returned, false, clearDebounce w)) by reflexivity.
  split; [exact Hstep|].
  destruct (Hlast sub JobSent false w _ _ _ Hstep) as (_ & Hf & _).
  exact Hf.
Defined.

(* ===================================================================== *)
(** * Batches: which events reach a Job *)
(* ===================================================================== *)

Lemma armTimers_keeps schedule w :
  Locals.buf (vars (armTimers schedule w)) = Locals.buf (vars w) /\
  created (armTimers schedule w) = created w /\
  sent (armTimers schedule w) = sent w.
Proof.
  unfold armTimers, AfterFunc.
  destruct (0 <? computeDebounceCap schedule); repeat split.
Qed.

Lemma createJob_accounted sub o w : accounted (createJob sub o w) = accounted w.
Proof.
  unfold accounted, createJob, createJob_locked, createJob_snapshot.
  destruct (Locals.jobCreated (vars w)); [reflexivity|].
  cbn. rewrite map_app, concat_app. cbn. now rewrite !app_nil_r.
Qed.

Lemma addEvent_accounted schedule sub o evt w :
  accounted (addEvent schedule sub o evt w) = accounted w ++ [evt].
Proof.
  unfold addEvent.
  destruct (Continuous.debounce schedule <=? 0).
  - rewrite createJob_accounted. unfold accounted. cbn. now rewrite app_assoc.
  - unfold accounted.
    destruct (armTimers_keeps schedule (appendEvent evt (clearDebounce w)))
      as (-> & -> & _).
    cbn. now rewrite app_assoc.
Qed.

(** X5. As long as no call of a closure is interrupted by another goroutine,
    every event handed to [addEvent] is in exactly one place: in one Job
    built since, or still in the buffer; and each Job holds what the buffer
    held when it was built. *)
Lemma uninterrupted_calls_account_for_every_event schedule sub cs : forall w,
  accounted (calls schedule sub cs w) = accounted w ++ received cs.
Proof.
  unfold calls.
  induction cs as [|c cs IH]; intros w; cbn [fold_left received flat_map].
  - now rewrite app_nil_r.
  - rewrite IH. fold (received cs). destruct c as [at_ evt o|o]; cbn [call].
    + rewrite addEvent_accounted. unfold accounted. cbn.
      now rewrite <- !app_assoc.
    + now rewrite createJob_accounted.
Qed.

Lemma stepFrame_accountsFor sub o f m w f' m' w' A B ap :
  stepFrame sub o f m w = Some (f', m', w') ->
  accountsFor m (A ++ selectingOf f ++ B) w ap ->
  accountsFor m' (A ++ selectingOf f' ++ B) w' ap.
Proof.
  destruct f as [|job| |]; cbn [stepFrame selectingOf]; intros Hstep Hacc.
  - destruct m; [discriminate|]. destruct Hacc as (Hsel & Hacc).
    apply app_eq_nil in Hsel as (-> & HB). cbn in HB. subst B.
    unfold createJob_snapshot in Hstep.
    destruct (Locals.jobCreated (vars w)); injection Hstep as <- <- <-.
    + split; [reflexivity | exact Hacc].
    + eexists. split; [reflexivity|]. split; [reflexivity|].
      cbn. rewrite map_app, concat_app. cbn. rewrite app_nil_r. exact Hacc.
  - injection Hstep as <- <- <-. destruct m.
    + destruct Hacc as (j0 & Hsel & Hbuf & Hacc).
      assert (A = [] /\ B = []) as (-> & ->).
      { destruct A as [|a A]; cbn in Hsel.
        - injection Hsel as _ HB. auto.
        - injection Hsel as _ Hrest. now destruct A. }
      split; [reflexivity|]. unfold accounted. cbn. rewrite app_nil_r.
      exact Hacc.
    + destruct Hacc as (Hsel & _). now destruct A.
  - destruct m; [discriminate|]. injection Hstep as <- <- <-.
    destruct Hacc as (Hsel & Hacc). split; [exact Hsel | exact Hacc].
  - discriminate.
Qed.

Lemma flat_map_selecting_insert cbs i f f' :
  cbs !! i = Some f ->
  exists A B,
    flat_map selectingOf cbs = A ++ selectingOf f ++ B /\
    flat_map selectingOf (<[i := f']> cbs) = A ++ selectingOf f' ++ B.
Proof.
  intros Hi.
  exists (flat_map selectingOf (take i cbs)),
         (flat_map selectingOf (drop (S i) cbs)).
  split.
  - rewrite <- (take_drop_middle cbs i f Hi) at 1.
    now rewrite flat_map_app.
  - rewrite insert_take_drop by (now apply lookup_lt_Some in Hi).
    now rewrite flat_map_app.
Qed.

Lemma step_accountsFor schedule sub a s s' ap :
  step schedule sub a s = Some s' ->
  serialisedStep a s = true ->
  accountsFor (mux s) (selecting s) (world s) ap ->
  accountsFor (mux s') (selecting s') (world s') (ap ++ appendedBy a s).
Proof.
  destruct s as [w m l cbs]. unfold selecting, appendedBy, serialisedStep.
  destruct a as [d|evt|o|r|i o]; cbn [step world mux loop callbacks];
    intros Hstep Hser Hacc.
  - destruct (d <? 0); [discriminate|]. injection Hstep as <-.
    rewrite app_nil_r. exact Hacc.
  - destruct l; try discriminate. injection Hstep as <-.
    rewrite app_nil_r. exact Hacc.
  - destruct l as [|evt|evt|f|]; try discriminate.
    + destruct m; [discriminate|]. injection Hstep as <-.
      rewrite app_nil_r. exact Hacc.
    + destruct m; [discriminate|]. injection Hstep as <-.
      cbn [world mux loop callbacks] in *. destruct Hacc as (Hsel & Hacc).
      split.
      * destruct (Continuous.debounce schedule <=? 0); exact Hsel.
      * unfold accounted in *. cbn. now rewrite app_assoc, Hacc.
    + destruct (stepFrame sub o f m w) as [[[f' m'] w']|] eqn:E; [|discriminate].
      rewrite app_nil_r.
      pose proof (stepFrame_accountsFor sub o f m w f' m' w' []
                    (flat_map selectingOf cbs) ap E Hacc) as H.
      destruct f'; injection Hstep as <-; exact H.
    + destruct m; [discriminate|]. injection Hstep as <-.
      rewrite app_nil_r. cbn [world mux loop callbacks] in *.
      destruct Hacc as (Hsel & Hacc). split; [exact Hsel|].
      unfold accounted in *.
      now destruct (armTimers_keeps schedule w) as (-> & -> & _).
  - destruct (timers w !! r) as [[at_ []]|]; try discriminate.
    destruct (at_ <=? now w); [|discriminate]. injection Hstep as <-.
    rewrite app_nil_r. cbn [world mux loop callbacks] in *.
    rewrite flat_map_app. cbn [flat_map selectingOf]. rewrite !app_nil_r.
    exact Hacc.
  - destruct (cbs !! i) as [f|] eqn:Hi; [|discriminate].
    destruct (stepFrame sub o f m w) as [[[f' m'] w']|] eqn:E; [|discriminate].
    injection Hstep as <-. rewrite app_nil_r.
    cbn [world mux loop callbacks] in *.
    destruct (flat_map_selecting_insert cbs i f f' Hi) as (A & B & HA & HB).
    rewrite HA in Hacc. rewrite HB. rewrite app_assoc in Hacc |- *.
    exact (stepFrame_accountsFor sub o f m w f' m' w' _ B ap E Hacc).
Qed.

(** X13. In every interleaving whose appends are serialised with the locked
    part of [createJob], whenever [mux] is free the Jobs built so far and
    the buffer hold the events appended so far, each once and in order. *)
Lemma serialised_appends_account_for_every_event schedule sub acts :
  forall s s' ap,
    run schedule sub acts s = Some s' ->
    appendsSerialised schedule sub acts s = true ->
    accountsFor (mux s) (selecting s) (world s) ap ->
    accountsFor (mux s') (selecting s') (world s')
                (ap ++ appended schedule sub acts s).
Proof.
  induction acts as [|a acts IH]; intros s s' ap Hrun Hser Hacc.
  - cbn in Hrun. inversion Hrun; subst. cbn. now rewrite app_nil_r.
  - cbn [run appendsSerialised appended] in *.
    destruct (step schedule sub a s) as [s1|] eqn:Hstep; [|discriminate].
    apply andb_prop in Hser as (Hser1 & Hser).
    rewrite app_assoc. apply (IH s1 s'); [exact Hrun | exact Hser|].
    now apply (step_accountsFor schedule sub a s s1).
Qed.

(** C1, on the code: line 262 appends to the buffer without holding [mux].
    With a debounce of 1s, event 1 is buffered and its debounce timer
    expires; the callback takes [mux] and copies the buffer, which holds
    event 1; [addEvent] for event 2, already past its [clearDebounce],
    appends event 2; the callback then sends its Job and truncates the
    buffer.  When everything has returned and the next timer has expired,
    two Jobs exist, holding event 1 and nothing: event 2, which was
    appended to the buffer, is in no Job and not in the buffer, and no
    timer is armed. *)
Theorem unlocked_append_loses_event :
  let schedule :=
    Continuously initVars ["foo"%string] [Debounce (1 * time.Second)] in
  let sub := projection.mkSubscription None in
  let e1 := event.mkEvent 1 "foo" 0 in
  let e2 := event.mkEvent 2 "foo" (1 * time.Second) in
  let first :=
    [Receive e1; Loop JobSent; Loop JobSent; Loop JobSent;
     Elapse (1 * time.Second); Expire 0;
     Receive e2; Loop JobSent;
     Callback 0 JobSent;
     Loop JobSent] in
  let second :=
    [Callback 0 JobSent; Callback 0 JobSent;
     Loop JobSent;
     Elapse (1 * time.Second); Expire 2;
     Callback 1 JobSent; Callback 1 JobSent; Callback 1 JobSent] in
  (exists s1,
     run schedule sub first (initSystem 0) = Some s1 /\
     Locals.buf (vars (world s1)) = [e1; e2] /\
     mux s1 = true /\
     callbacks s1 = [AtSelect (jobOf sub [e1])] /\
     loop s1 = AtArm) /\
  appendsSerialised schedule sub first (initSystem 0) = false /\
  appended schedule sub (first ++ second) (initSystem 0) = [e1; e2] /\
  (exists s,
     run schedule sub (first ++ second) (initSystem 0) = Some s /\
     map jobEvents (created (world s)) = [[e1]; []] /\
     sent (world s) = created (world s) /\
     Locals.buf (vars (world s)) = [] /\
     ~ In e2 (accounted (world s)) /\
     loop s = Waiting /\
     callbacks s = [Returned; Returned] /\
     map time.status (timers (world s)) =
       [time.Fired; time.Stopped; time.Fired; time.Stopped]).
Proof.
  cbv zeta. split; [|split; [|split]].
  - eexists. split; [vm_compute; reflexivity|]. repeat split.
  - vm_compute. reflexivity.
  - vm_compute. reflexivity.
  - eexists. split; [vm_compute; reflexivity|].
    repeat split. cbn. intros [H|[]]. discriminate H.
Qed.

(** C4, on the code: the deferred [clearDebounce] of the first invocation
    unsets [jobCreated] again.  With the debounce and the cap both 1s, both
    timers expire for the batch holding event 1.  While the first callback
    holds [mux] the second cannot move; once the first has sent its Job and
    released [mux], with [jobCreated] set, either callback can take [mux]
    next.  When the second takes it first, it returns at the guard and one
    Job has been sent; when the first takes it first, for its deferred
    [clearDebounce], the guard then finds [jobCreated] unset, and a second
    Job, with no events, is built and sent. *)
Theorem racing_createJob_can_send_two_jobs :
  let schedule :=
    Continuously initVars ["foo"%string]
      [Debounce (1 * time.Second); DebounceCap (1 * time.Second)] in
  let sub := projection.mkSubscription None in
  let e1 := event.mkEvent 1 "foo" 0 in
  let both_expired :=
    [Receive e1; Loop JobSent; Loop JobSent; Loop JobSent;
     Elapse (1 * time.Second); Expire 0; Expire 1] in
  let first_locked := both_expired ++ [Callback 0 JobSent] in
  let first_sent := first_locked ++ [Callback 0 JobSent] in
  let guarded :=
    first_sent ++ [Callback 1 JobSent; Callback 0 JobSent; Callback 1 JobSent] in
  let unguarded :=
    first_sent ++ [Callback 0 JobSent;
                   Callback 1 JobSent; Callback 1 JobSent; Callback 1 JobSent] in
  (exists s,
     run schedule sub both_expired (initSystem 0) = Some s /\
     callbacks s = [AtLock; AtLock] /\
     Locals.buf (vars (world s)) = [e1]) /\
  (exists s,
     run schedule sub first_locked (initSystem 0) = Some s /\
     mux s = true /\
     step schedule sub (Callback 1 JobSent) s = None) /\
  (exists s,
     run schedule sub first_sent (initSystem 0) = Some s /\
     mux s = false /\
     Locals.jobCreated (vars (world s)) = true /\
     callbacks s = [AtDeferredClear; AtLock] /\
     sent (world s) = [jobOf sub [e1]] /\
     step schedule sub (Callback 0 JobSent) s <> None /\
     step schedule sub (Callback 1 JobSent) s <> None) /\
  (exists s,
     run schedule sub guarded (initSystem 0) = Some s /\
     callbacks s = [Returned; Returned] /\
     sent (world s) = [jobOf sub [e1]] /\
     created (world s) = sent (world s) /\
     Locals.buf (vars (world s)) = []) /\
  (exists s,
     run schedule sub unguarded (initSystem 0) = Some s /\
     callbacks s = [Returned; Returned] /\
     sent (world s) = [jobOf sub [e1]; jobOf sub []] /\
     created (world s) = sent (world s) /\
     Locals.buf (vars (world s)) = []).
Proof.
  cbv zeta. repeat split; eexists; (split; [vm_compute; reflexivity|]);
    repeat split; discriminate.
Qed.

(* ===================================================================== *)
(** * [Subscribe]: the failing returns *)
(* ===================================================================== *)

(** When [bus.Subscribe] fails, [Subscribe] returns a nil channel and the
    error wrapped, and has started no goroutine. *)
Lemma Subscribe_bus_failure env schedule cfg e :
  busSubscribe env (Continuous.eventNames schedule) = Some e ->
  let r := Subscribe env schedule cfg in
  errs r = None /\
  (exists w, err r = Some w /\ Unwrap w = Some e) /\
  started r = [].
Proof.
  intros H. unfold Subscribe. rewrite H. cbn. eauto.
Qed.

(** When the startup Job fails, [Subscribe] returns a nil channel and the
    error wrapped; none of the goroutines of lines 176-183 has been started,
    the one of lines 162-165 has. *)
Lemma Subscribe_startup_failure env schedule cfg tr e :
  busSubscribe env (Continuous.eventNames schedule) = None ->
  projection.Startup cfg = Some tr ->
  applyStartupJob env cfg = Some e ->
  let r := Subscribe env schedule cfg in
  errs r = None /\
  err r = Some (wrapError ("startup: " ++ Error e)%string e) /\
  started r = [goRemoveTriggers].
Proof.
  intros Hb Hs Ha. unfold Subscribe. rewrite Hb, Hs, Ha. cbn. auto.
Qed.

(** When nothing fails, [Subscribe] returns the channel [out] and no error,
    with all five goroutines started. *)
Lemma Subscribe_success env schedule cfg :
  busSubscribe env (Continuous.eventNames schedule) = None ->
  (projection.Startup cfg = None \/ applyStartupJob env cfg = None) ->
  let r := Subscribe env schedule cfg in
  errs r = Some chOut /\ err r = None /\
  started r = [goRemoveTriggers; goHandleEvents; goHandleTriggers;
               goApplyJobs; goCloseJobs].
Proof.
  intros Hb Hs. unfold Subscribe. rewrite Hb.
  destruct (projection.Startup cfg) as [tr|].
  - destruct Hs as [Hs|Hs]; [discriminate|]. rewrite Hs. repeat split.
  - repeat split.
Qed.

(** C7, on the code: the goroutine of lines 162-165 is started before the
    startup Job is applied.  With a bus that accepts the subscription and a
    startup Job that fails, [Subscribe] returns a nil channel and the
    wrapped error, and one goroutine has been started; it waits for [done],
    which no other started goroutine holds.  With a bus that rejects the
    subscription no goroutine has been started. *)
Theorem Subscribe_startup_failure_leaves_goroutine :
  let schedule := Continuously initVars ["foo"%string; "bar"%string] [] in
  let cfg := projection.mkSubscription (Some (projection.mkTrigger "startup")) in
  let failing_startup :=
    mkCollaborators (fun _ => None) (fun _ => Some (errorString "boom")) in
  let failing_bus :=
    mkCollaborators (fun _ => Some (errorString "closed")) (fun _ => None) in
  let r := Subscribe failing_startup schedule cfg in
  errs r = None /\
  err r = Some (wrapError "startup: boom" (errorString "boom")) /\
  trace r = [BusSubscribe ["foo"%string; "bar"%string];
             MakeChan chOut; MakeChan chJobs; NewTriggers; MakeChan chDone;
             Go goRemoveTriggers; ApplyStartupJob] /\
  started r = [goRemoveTriggers] /\
  started r <> [] /\
  List.filter (fun g => existsb isDone (holds g)) (started r)
    = [goRemoveTriggers] /\
  Subscribe failing_bus schedule cfg =
    mkSubscribed None
      (Some (wrapError "subscribe to [foo bar] events: closed"
                       (errorString "closed")))
      [BusSubscribe ["foo"%string; "bar"%string]] /\
  started (Subscribe failing_bus schedule cfg) = [].
Proof. cbv zeta. repeat split. discriminate. Qed.

(* ===================================================================== *)
(** * More on the cap heuristic *)
(* ===================================================================== *)

Lemma wrap64_double_overflow d :
  time.maxInt64 / 2 < d <= time.maxInt64 -> time.wrap64 (d * 2) = d * 2 - 2 ^ 64.
Proof.
  change (time.maxInt64 / 2) with 4611686018427387903.
  unfold time.maxInt64, time.wrap64. intros H.
  replace (d * 2 + 2 ^ 63) with ((d * 2 + 2 ^ 63 - 2 ^ 64) + 1 * 2 ^ 64) by lia.
  rewrite Z_mod_plus_full, Z.mod_small; lia.
Qed.

(** X1. On a schedule built from the initial package variables without a
    [DebounceCap] option, whose debounce is at most [maxInt64 / 2], the
    computed cap is at least 5s and strictly longer than the debounce: the
    cap timer is never due before the debounce timer armed with it. *)
Theorem default_cap_exceeds_debounce names ks :
  lastDebounceCap ks = None ->
  let s := Continuously initVars names (map toOption ks) in
  Continuous.debounce s <= time.maxInt64 / 2 ->
  Continuous.debounce s < computeDebounceCap s /\
  5 * time.Second <= computeDebounceCap s.
Proof.
  intros Hnone s Hd.
  destruct (fold_options ks
              (Continuous.mk names 0 (DefaultDebounceCap initVars) false))
    as (_ & _ & Hc & Hm).
  fold (Continuously initVars names (map toOption ks)) in Hc, Hm.
  fold s in Hc, Hm. cbv zeta in Hc, Hm. rewrite Hnone in Hc, Hm.
  destruct s as [n d c o].
  cbn [Continuous.debounce Continuous.debounceCap
       Continuous.debounceCapManuallySet default] in *.
  subst c o. rewrite computeDebounceCap_unfold.
  change (DefaultDebounceCap initVars) with 5000000000.
  change (5 * time.Second) with 5000000000.
  change (time.maxInt64 / 2) with 4611686018427387903 in Hd.
  cbn [Z.leb Z.compare].
  destruct (Z.leb_spec d 2500000000); [lia|].
  rewrite wrap64_id; [lia|].
  unfold time.isInt64, time.minInt64, time.maxInt64. lia.
Qed.

(** X1 at [Debounce(3s)] and at [Debounce(1s)]. *)
Lemma default_cap_exceeds_debounce_witness :
  3 * time.Second
    < computeDebounceCap
        (Continuously initVars [] (map toOption [KDebounce (3 * time.Second)])) /\
  5 * time.Second
    <= computeDebounceCap
         (Continuously initVars [] (map toOption [KDebounce (1 * time.Second)])).
Proof.
  split.
  - apply (default_cap_exceeds_debounce [] [KDebounce (3 * time.Second)] eq_refl).
    vm_compute. discriminate.
  - apply (default_cap_exceeds_debounce [] [KDebounce (1 * time.Second)] eq_refl).
    vm_compute. discriminate.
Defined.

(** X2. A cap given with [DebounceCap] is used as given, whatever the
    debounce and wherever the option stands among the others: the computed
    cap is that duration when it is positive and 0 when it is not. *)
Theorem explicit_cap_is_used_as_given pv names ks c :
  lastDebounceCap ks = Some c ->
  computeDebounceCap (Continuously pv names (map toOption ks))
    = if c <=? 0 then 0 else c.
Proof.
  intros Hc.
  destruct (fold_options ks
              (Continuous.mk names 0 (DefaultDebounceCap pv) false))
    as (_ & _ & Hcap & Hm).
  fold (Continuously pv names (map toOption ks)) in Hcap, Hm.
  cbv zeta in Hcap, Hm. rewrite Hc in Hcap, Hm.
  destruct (Continuously pv names (map toOption ks)) as [n d c' o].
  cbn [Continuous.debounceCap Continuous.debounceCapManuallySet default] in *.
  subst c' o. rewrite computeDebounceCap_unfold. reflexivity.
Qed.

(** X2 with the cap option before and after the debounce option, and with
    a cap that is not positive. *)
Lemma explicit_cap_is_used_as_given_witness :
  computeDebounceCap
    (Continuously initVars []
       (map toOption [KDebounceCap (1 * time.Second); KDebounce (30 * time.Second)]))
    = 1 * time.Second /\
  computeDebounceCap
    (Continuously initVars []
       (map toOption [KDebounce (30 * time.Second); KDebounceCap (-1)]))
    = 0.
Proof.
  split.
  - exact (explicit_cap_is_used_as_given initVars []
             [KDebounceCap (1 * time.Second); KDebounce (30 * time.Second)]
             (1 * time.Second) eq_refl).
  - exact (explicit_cap_is_used_as_given initVars []
             [KDebounce (30 * time.Second); KDebounceCap (-1)] (-1) eq_refl).
Defined.

(** X3. While the debounce is at most [maxInt64 / 2] the computed cap is
    never negative, and it is 0 exactly when the cap field is <= 0.  Above
    that bound, a schedule with a positive cap field and no override gets a
    negative cap: the doubling wraps around. *)
Theorem computeDebounceCap_sign s :
  (Continuous.debounce s <= time.maxInt64 / 2 ->
   0 <= computeDebounceCap s /\
   (computeDebounceCap s = 0 <-> Continuous.debounceCap s <= 0)) /\
  (time.maxInt64 / 2 < Continuous.debounce s <= time.maxInt64 ->
   0 < Continuous.debounceCap s ->
   Continuous.debounceCapManuallySet s = false ->
   computeDebounceCap s = Continuous.debounce s * 2 - 2 ^ 64 /\
   computeDebounceCap s < 0).
Proof.
  destruct s as [n d c o]. rewrite computeDebounceCap_unfold.
  cbn [Continuous.debounce Continuous.debounceCap
       Continuous.debounceCapManuallySet].
  split.
  - intros Hd. change (time.maxInt64 / 2) with 4611686018427387903 in Hd.
    destruct (Z.leb_spec c 0); [split; [lia|tauto]|].
    destruct o; [split; [lia|split; lia]|].
    destruct (Z.leb_spec d 2500000000); [split; [lia|split; lia]|].
    rewrite wrap64_id
      by (unfold time.isInt64, time.minInt64, time.maxInt64; lia).
    split; [lia|split; lia].
  - intros Hd Hc ->. pose proof (wrap64_double_overflow d Hd) as Hw.
    change (time.maxInt64 / 2) with 4611686018427387903 in Hd.
    unfold time.maxInt64 in Hd.
    destruct (Z.leb_spec c 0); [lia|].
    destruct (Z.leb_spec d 2500000000); [lia|].
    rewrite Hw. lia.
Qed.

(** X3 at a debounce of 3s and at the first debounce above the bound. *)
Lemma computeDebounceCap_sign_witness :
  0 <= computeDebounceCap (Continuous.mk [] (3 * time.Second) (5 * time.Second) false) /\
  computeDebounceCap (Continuous.mk [] (2 ^ 62) (5 * time.Second) false) < 0.
Proof.
  split.
  - destruct (computeDebounceCap_sign
                (Continuous.mk [] (3 * time.Second) (5 * time.Second) false))
      as (H & _).
    apply H. vm_compute. discriminate.
  - destruct (computeDebounceCap_sign
                (Continuous.mk [] (2 ^ 62) (5 * time.Second) false))
      as (_ & H).
    apply H.
    + vm_compute. split; [reflexivity | discriminate].
    + vm_compute. reflexivity.
    + reflexivity.
Defined.

(* ===================================================================== *)
(** * More on the closures *)
(* ===================================================================== *)

Lemma clearDebounce_disarms w : armedAreHeld w -> noneArmed (clearDebounce w).
Proof.
  intros Hheld r t Hl Ha.
  apply clearDebounce_armed in Hl as (Hl & Hn1 & Hn2); [|exact Ha].
  destruct (Hheld r t Hl Ha); contradiction.
Qed.

Lemma noneArmed_held w : noneArmed w -> armedAreHeld w.
Proof. intros H r t Hl Ha. now destruct (H r t Hl). Qed.

(** With debouncing on and no positive cap, [addEvent] in one equation. *)
Lemma addEvent_uncapped schedule sub o evt w :
  0 < Continuous.debounce schedule ->
  computeDebounceCap schedule <= 0 ->
  addEvent schedule sub o evt w =
    mkWorld
      (Locals.mk (Locals.buf (vars w) ++ [evt])
                 (Some (length (timers w))) None false)
      (timers (clearDebounce w) ++
         [time.mkTimer (now w + Continuous.debounce schedule) time.Armed])
      (now w) (created w) (sent w).
Proof.
  intros Hd Hc. unfold addEvent, armTimers, AfterFunc.
  destruct (Z.leb_spec (Continuous.debounce schedule) 0) as [?|_]; [lia|].
  destruct (Z.ltb_spec 0 (computeDebounceCap schedule)) as [?|_]; [lia|].
  cbn -[clearDebounce]. rewrite clearDebounce_length.
  rewrite !Z.max_r by lia. reflexivity.
Qed.

(** With debouncing off, what [addEvent] leaves. *)
Lemma addEvent_sync schedule sub o evt w :
  Continuous.debounce schedule <= 0 ->
  vars (addEvent schedule sub o evt w) = Locals.mk [] None None false /\
  timers (addEvent schedule sub o evt w) = timers (clearDebounce w) /\
  created (addEvent schedule sub o evt w)
    = created w ++ [jobOf sub (Locals.buf (vars w) ++ [evt])].
Proof.
  intros Hd. apply Z.leb_le in Hd. unfold addEvent. rewrite Hd.
  unfold createJob, createJob_locked, createJob_snapshot. cbn.
  repeat split.
Qed.

(** X4. With a positive debounce and a computed cap that is not positive
    (a [DebounceCap] <= 0, or the heuristic's wrap-around), [addEvent] arms
    the debounce timer alone: the cap variable stays nil, the timers the
    variables pointed to are not armed, no Job is built, and when every
    armed timer was pointed to before, the new debounce timer is the only
    armed timer after. *)
Theorem addEvent_without_cap schedule sub o evt w :
  0 < Continuous.debounce schedule ->
  computeDebounceCap schedule <= 0 ->
  let w' := addEvent schedule sub o evt w in
  let n := length (timers w) in
  Locals.debounce (vars w') = Some n /\
  Locals.debounceCap (vars w') = None /\
  timers w' !! n =
    Some (time.mkTimer (now w + Continuous.debounce schedule) time.Armed) /\
  length (timers w') = S n /\
  (forall r t,
     Locals.debounce (vars w) = Some r \/ Locals.debounceCap (vars w) = Some r ->
     (r < n)%nat -> timers w' !! r = Some t -> time.status t <> time.Armed) /\
  Locals.buf (vars w') = Locals.buf (vars w) ++ [evt] /\
  created w' = created w /\ sent w' = sent w /\
  (armedAreHeld w ->
   forall r t, timers w' !! r = Some t -> time.status t = time.Armed -> r = n).
Proof.
  intros Hd Hc w' n. subst w' n. rewrite addEvent_uncapped by assumption.
  cbn [vars timers created sent Locals.debounce Locals.debounceCap Locals.buf].
  pose proof (clearDebounce_length w) as Hlen.
  split; [reflexivity|]. split; [reflexivity|]. split.
  { rewrite lookup_app_r by lia. now rewrite Hlen, Nat.sub_diag. }
  split. { rewrite length_app, Hlen. cbn. lia. }
  split.
  { intros r t Hheld Hlt Hl. rewrite lookup_app_l in Hl by lia.
    now apply (clearDebounce_stops w r t). }
  split; [reflexivity|]. split; [reflexivity|]. split; [reflexivity|].
  intros Hheld r t Hl Ha.
  destruct (decide (r < length (timers w))%nat) as [Hlt|Hge].
  - rewrite lookup_app_l in Hl by lia.
    now destruct (clearDebounce_disarms w Hheld r t Hl).
  - apply lookup_lt_Some in Hl. rewrite length_app, Hlen in Hl.
    cbn [length] in Hl. lia.
Qed.

(** X4 with [Debounce(1s)] and [DebounceCap(0)], on a world whose two
    timers are armed and pointed to. *)
Lemma addEvent_without_cap_witness :
  let schedule := Continuously initVars ["foo"%string]
                    [Debounce (1 * time.Second); DebounceCap 0] in
  let sub := projection.mkSubscription None in
  let e2 := event.mkEvent 2 "foo" 7 in
  let w := mkWorld (Locals.mk [event.mkEvent 1 "foo" 3] (Some 0%nat) (Some 1%nat) false)
             [time.mkTimer 5 time.Armed; time.mkTimer 9 time.Armed] 4 [] [] in
  let w' := addEvent schedule sub JobSent e2 w in
  0 < Continuous.debounce schedule /\
  computeDebounceCap schedule <= 0 /\
  Locals.debounce (vars w') = Some 2%nat /\
  Locals.debounceCap (vars w') = None /\
  timers w' !! 1%nat = Some (time.mkTimer 9 time.Stopped) /\
  time.status (time.mkTimer 9 time.Stopped) <> time.Armed /\
  timers w' !! 2%nat = Some (time.mkTimer (4 + 1 * time.Second) time.Armed) /\
  (forall r t, timers w' !! r = Some t -> time.status t = time.Armed ->
     r = 2%nat).
Proof.
  intros schedule sub e2 w w'.
  assert (Hd : 0 < Continuous.debounce schedule) by (vm_compute; reflexivity).
  assert (Hc : computeDebounceCap schedule <= 0) by (vm_compute; discriminate).
  split; [exact Hd|]. split; [exact Hc|].
  destruct (addEvent_without_cap schedule sub JobSent e2 w Hd Hc)
    as (H1 & H2 & H3 & _ & H5 & _ & _ & _ & H9).
  assert (Hl : timers w' !! 1%nat = Some (time.mkTimer 9 time.Stopped))
    by reflexivity.
  assert (Hheld : armedAreHeld w).
  { intros r t Hr _. destruct r as [|[|r]]; cbn in Hr; [auto|auto|discriminate]. }
  split; [exact H1|]. split; [exact H2|]. split; [exact Hl|].
  split; [exact (H5 1%nat _ (or_intror eq_refl) ltac:(cbn; lia) Hl)|].
  split; [exact H3|].
  exact (H9 Hheld).
Defined.

(** [clearDebounce] is idempotent and is absorbed by the closures that
    run it: [addEvent] and [createJob] behave the same on a world that was
    just cleared from the timers' side, a [clearDebounce] right after
    [createJob] changes nothing, and it never touches the buffer, the Jobs
    or the clock. *)
Theorem clearDebounce_absorbed :
  (forall w, clearDebounce (clearDebounce w) = clearDebounce w) /\
  (forall schedule sub o evt w,
     addEvent schedule sub o evt (clearDebounce w)
       = addEvent schedule sub o evt w) /\
  (forall sub o w, clearDebounce (createJob sub o w) = createJob sub o w) /\
  (forall w,
     Locals.buf (vars (clearDebounce w)) = Locals.buf (vars w) /\
     created (clearDebounce w) = created w /\
     sent (clearDebounce w) = sent w /\
     now (clearDebounce w) = now w /\
     map time.when (timers (clearDebounce w)) = map time.when (timers w)).
Proof.
  assert (Hidem : forall w, clearDebounce (clearDebounce w) = clearDebounce w)
    by reflexivity.
  split; [exact Hidem|]. split; [|split].
  - intros. unfold addEvent. now rewrite Hidem.
  - intros. unfold createJob. apply Hidem.
  - intros w. repeat split. cbn [clearDebounce timers].
    assert (Hstop : forall p ts, map time.when (stopIfSet p ts) = map time.when ts).
    { intros [r|] ts; [|reflexivity]. cbn. revert r.
      induction ts as [|[a st] ts IH]; intros [|r]; cbn; try reflexivity.
      - now destruct st.
      - f_equal. apply IH. }
    now rewrite !Hstop.
Qed.

(* ===================================================================== *)
(** * [handleEvents] with its callbacks uninterrupted *)
(* ===================================================================== *)

Lemma createJob_unset sub o w :
  Locals.jobCreated (vars w) = false ->
  createJob sub o w =
    mkWorld (Locals.mk [] None None false) (timers (clearDebounce w)) (now w)
            (created w ++ [jobOf sub (Locals.buf (vars w))])
            (match o with
             | JobSent => sent w ++ [jobOf sub (Locals.buf (vars w))]
             | CtxDone => sent w
             end).
Proof.
  intros H. unfold createJob, createJob_locked, createJob_snapshot.
  rewrite H. destruct o; reflexivity.
Qed.

Lemma settled_init t0 : settled (initWorld t0).
Proof.
  repeat split.
  - intros r t Hl. discriminate.
  - constructor.
Qed.

Lemma addEvent_settled schedule sub o evt w :
  settled w -> settled (addEvent schedule sub o evt w).
Proof.
  intros (Hheld & Hflag & Hbuf & Hjobs).
  destruct (Z.leb_spec (Continuous.debounce schedule) 0) as [Hd|Hd].
  - destruct (addEvent_sync schedule sub o evt w Hd) as (Hv & Ht & Hc).
    unfold settled, armedAreHeld, handlesNil. rewrite Hv, Ht, Hc.
    split; [|split; [reflexivity|split; [now split|]]].
    + intros r t Hl Ha. now destruct (clearDebounce_disarms w Hheld r t Hl).
    + apply Forall_app. split; [exact Hjobs|].
      constructor; [|constructor]. cbn. now destruct (Locals.buf (vars w)).
  - destruct (Z.ltb_spec 0 (computeDebounceCap schedule)) as [Hc|Hc].
    + split.
      { eapply rearmedAt_held. now apply addEvent_rearmedAt. }
      rewrite addEvent_debounced by assumption. cbn.
      split; [reflexivity|]. split; [|exact Hjobs].
      intros E. now destruct (Locals.buf (vars w)).
    + rewrite addEvent_uncapped by assumption.
      unfold settled, armedAreHeld, handlesNil.
      cbn [vars timers created Locals.buf Locals.debounce Locals.debounceCap
           Locals.jobCreated].
      split; [|split; [reflexivity|split; [|exact Hjobs]]].
      * intros r t Hl Ha.
        destruct (decide (r < length (timers w))%nat) as [Hlt|Hge].
        -- rewrite lookup_app_l in Hl by (rewrite clearDebounce_length; lia).
           now destruct (clearDebounce_disarms w Hheld r t Hl).
        -- apply lookup_lt_Some in Hl.
           rewrite length_app, clearDebounce_length in Hl. cbn [length] in Hl.
           left. f_equal. lia.
      * intros E. now destruct (Locals.buf (vars w)).
Qed.

Lemma fire_inv r w w' :
  fire r w = Some w' ->
  vars w' = vars w /\ created w' = created w /\ sent w' = sent w /\
  now w' = now w /\
  (exists t, timers w !! r = Some t /\ time.status t = time.Armed /\
             time.when t <= now w) /\
  (armedAreHeld w -> armedAreHeld w').
Proof.
  unfold fire. destruct (timers w !! r) as [[at_ st]|] eqn:Hr; [|discriminate].
  destruct st; try discriminate.
  destruct (Z.leb_spec at_ (now w)); [|discriminate].
  intros [= <-]. repeat split.
  - eexists. repeat split; eauto.
  - intros Hheld r' t Hl Ha. cbn in Hl.
    destruct (decide (r = r')) as [->|Hne].
    + rewrite list_lookup_insert_eq in Hl by (now apply lookup_lt_Some in Hr).
      injection Hl as <-. discriminate.
    + rewrite list_lookup_insert_ne in Hl by exact Hne.
      exact (Hheld r' t Hl Ha).
Qed.

(** A timer that fires between two calls finds an event in the buffer; its
    callback builds the Job of the whole buffer and leaves no timer armed. *)
Lemma fired_createJob_settled sub o r w w1 :
  settled w -> fire r w = Some w1 ->
  Locals.buf (vars w) <> [] /\
  created (createJob sub o w1) = created w ++ [jobOf sub (Locals.buf (vars w))] /\
  vars (createJob sub o w1) = Locals.mk [] None None false /\
  noneArmed (createJob sub o w1) /\
  settled (createJob sub o w1).
Proof.
  intros (Hheld & Hflag & Hbuf & Hjobs) Hfire.
  destruct (fire_inv r w w1 Hfire) as (Hv & Hc & _ & _ & (t & Hl & Ha & _) & Hh).
  assert (Hne : Locals.buf (vars w) <> []).
  { intros E. destruct (Hbuf E) as (H1 & H2).
    destruct (Hheld r t Hl Ha); congruence. }
  rewrite createJob_unset by (now rewrite Hv).
  rewrite Hv, Hc. cbn [vars created timers].
  pose proof (clearDebounce_disarms w1 (Hh Hheld)) as Hnone.
  split; [exact Hne|]. split; [reflexivity|]. split; [reflexivity|].
  split; [exact Hnone|].
  split; [now apply noneArmed_held|]. split; [reflexivity|].
  split; [now split|].
  apply Forall_app. split; [exact Hjobs|]. now repeat constructor.
Qed.

Lemma occur_settled schedule sub x t t' :
  occur schedule sub x t = Some t' ->
  settled (tWorld t) ->
  settled (tWorld t') /\
  accounted (tWorld t') = accounted (tWorld t) ++ feedEvents [x] /\
  now (tWorld t) <= now (tWorld t').
Proof.
  destruct t as [w out]. destruct x as [at_ evt o|e o|at_ r o];
    cbn [occur tWorld tOut feedEvents flat_map]; intros Hocc Hs.
  - destruct (Z.ltb_spec at_ (now w)); [discriminate|].
    injection Hocc as <-. cbn [tWorld].
    split; [now apply addEvent_settled|].
    split; [now rewrite addEvent_accounted, app_nil_r|].
    unfold addEvent.
    destruct (Continuous.debounce schedule <=? 0).
    + unfold createJob.
      destruct (createJob_locked_handles sub o
                  (appendEvent evt (clearDebounce (setNow at_ w))))
        as (_ & _ & _ & Hn).
      cbn [now clearDebounce] in *. rewrite Hn. cbn. lia.
    + unfold armTimers, AfterFunc.
      destruct (0 <? computeDebounceCap schedule); cbn; lia.
  - injection Hocc as <-. cbn [tWorld]. rewrite app_nil_r.
    split; [exact Hs|]. split; [reflexivity | lia].
  - destruct (Z.ltb_spec at_ (now w)); [discriminate|].
    destruct (fire r (setNow at_ w)) as [w1|] eqn:Hfire; [|discriminate].
    injection Hocc as <-. cbn [tWorld]. rewrite app_nil_r.
    destruct (fired_createJob_settled sub o r (setNow at_ w) w1 Hs Hfire)
      as (_ & _ & _ & _ & Hs').
    destruct (fire_inv r (setNow at_ w) w1 Hfire) as (Hv & Hc & _ & Hn & _).
    split; [exact Hs'|]. split.
    + rewrite createJob_accounted. unfold accounted. now rewrite Hv, Hc.
    + unfold createJob.
      destruct (createJob_locked_handles sub o w1) as (_ & _ & _ & Hn').
      cbn [now clearDebounce]. rewrite Hn', Hn. cbn. lia.
Qed.

Lemma occurAll_settled schedule sub xs : forall t t',
  occurAll schedule sub xs t = Some t' ->
  settled (tWorld t) ->
  settled (tWorld t') /\
  accounted (tWorld t') = accounted (tWorld t) ++ feedEvents xs.
Proof.
  induction xs as [|x xs IH]; intros t t' Hrun Hs.
  - injection Hrun as <-. split; [exact Hs|]. cbn. now rewrite app_nil_r.
  - cbn [occurAll] in Hrun.
    destruct (occur schedule sub x t) as [t1|] eqn:Hocc; [|discriminate].
    destruct (occur_settled schedule sub x t t1 Hocc Hs) as (Hs1 & Hacc1 & _).
    destruct (IH t1 t' Hrun Hs1) as (Hs' & Hacc').
    split; [exact Hs'|]. rewrite Hacc', Hacc1, <- app_assoc.
    f_equal. change (x :: xs) with ([x] ++ xs).
    unfold feedEvents. now rewrite flat_map_app.
Qed.

(** X6. As long as every call of [addEvent] runs to its return before the
    next occurrence, and every timer callback runs, to its return, at the
    moment its timer expires, no Job is empty and there are no more Jobs
    than events: a timer can only expire while the buffer holds an event.
    (Two timers that both expire before either callback runs are outside
    this condition.) *)
Theorem uninterrupted_jobs_are_never_empty schedule sub t0 xs fin :
  handleEvents schedule sub t0 xs = Some fin ->
  Forall (fun j => jobEvents j <> []) (created (fWorld fin)) /\
  (length (created (fWorld fin)) <= length (feedEvents xs))%nat.
Proof.
  unfold handleEvents.
  destruct (occurAll schedule sub xs (mkTask (initWorld t0) [])) as [t|] eqn:Hrun;
    [|discriminate].
  intros [= <-]. cbn [fWorld].
  destruct (occurAll_settled schedule sub xs _ t Hrun (settled_init t0))
    as ((_ & _ & _ & Hjobs) & Hacc).
  cbn [tWorld] in Hacc. change (accounted (initWorld t0)) with (@nil event.Event) in Hacc.
  cbn [app] in Hacc.
  change (created (clearDebounce (tWorld t))) with (created (tWorld t)).
  split; [exact Hjobs|].
  rewrite <- Hacc. unfold accounted. rewrite length_app.
  enough (length (created (tWorld t))
          <= length (concat (map jobEvents (created (tWorld t)))))%nat by lia.
  clear Hacc Hrun. induction Hjobs as [|j js Hj _ IH]; [reflexivity|].
  cbn. rewrite length_app. destruct (jobEvents j); [contradiction|]. cbn. lia.
Qed.

(** X6 on a feed of two events debounced into one Job by the cap timer. *)
Lemma uninterrupted_jobs_are_never_empty_witness :
  let schedule := Continuously initVars ["foo"%string]
                    [Debounce (1 * time.Second); DebounceCap (1500 * time.Millisecond)] in
  let sub := projection.mkSubscription None in
  let e1 := event.mkEvent 1 "foo" 0 in
  let e2 := event.mkEvent 2 "foo" 1 in
  let xs := [FeedEvent 0 e1 JobSent;
             FeedEvent (600 * time.Millisecond) e2 JobSent;
             TimerFires (2500 * time.Millisecond) 3 JobSent] in
  exists fin,
    handleEvents schedule sub 0 xs = Some fin /\
    map jobEvents (created (fWorld fin)) = [[e1; e2]] /\
    Forall (fun j => jobEvents j <> []) (created (fWorld fin)).
Proof.
  intros schedule sub e1 e2 xs.
  destruct (handleEvents schedule sub 0 xs) as [fin|] eqn:E;
    [|vm_compute in E; discriminate].
  exists fin. split; [reflexivity|].
  split; [vm_compute in E; injection E as <-; reflexivity|].
  exact (proj1 (uninterrupted_jobs_are_never_empty schedule sub 0 xs fin E)).
Defined.

(** X7. As long as every call of [addEvent] runs to its return before the
    next occurrence, and every timer callback runs, to its return, at the
    moment its timer expires: when [handleEvents] returns, its deferred
    [clearDebounce] has left no timer armed and both timer variables nil;
    the Jobs built and the buffer together hold the events of the feed,
    each once and in order; and with debouncing on, the last event of a
    feed that ends with an event is in the buffer and in no Job. *)
Theorem handleEvents_return_drops_pending schedule sub t0 xs fin :
  handleEvents schedule sub t0 xs = Some fin ->
  noneArmed (fWorld fin) /\
  handlesNil (fWorld fin) /\
  Locals.jobCreated (vars (fWorld fin)) = false /\
  accounted (fWorld fin) = feedEvents xs /\
  (0 < Continuous.debounce schedule ->
   forall xs' at_ evt o,
     xs = xs' ++ [FeedEvent at_ evt o] ->
     exists pre,
       Locals.buf (vars (fWorld fin)) = pre ++ [evt] /\
       concat (map jobEvents (created (fWorld fin))) ++ pre = feedEvents xs').
Proof.
  unfold handleEvents.
  destruct (occurAll schedule sub xs (mkTask (initWorld t0) [])) as [t|] eqn:Hrun;
    [|discriminate].
  intros [= <-]. cbn [fWorld fWgDone].
  destruct (occurAll_settled schedule sub xs _ t Hrun (settled_init t0))
    as ((Hheld & _) & Hacc).
  cbn [tWorld] in Hacc.
  change (accounted (initWorld t0)) with (@nil event.Event) in Hacc.
  cbn [app] in Hacc.
  assert (Hacc' : accounted (clearDebounce (tWorld t)) = feedEvents xs)
    by exact Hacc.
  split; [now apply clearDebounce_disarms|].
  split; [now split|]. split; [reflexivity|].
  split; [exact Hacc'|].
  intros Hd xs' at_ evt o ->.
  assert (Hlast : exists t1,
            occurAll schedule sub xs' (mkTask (initWorld t0) []) = Some t1 /\
            occur schedule sub (FeedEvent at_ evt o) t1 = Some t).
  { clear Hacc Hacc' Hheld. revert Hrun.
    generalize (mkTask (initWorld t0) []).
    induction xs' as [|x xs' IH]; intros t2 Hrun; cbn [app occurAll] in *.
    - destruct (occur schedule sub (FeedEvent at_ evt o) t2) as [t3|] eqn:E;
        [|discriminate].
      exists t2. split; [reflexivity|]. now rewrite <- Hrun.
    - destruct (occur schedule sub x t2) as [t3|]; [|discriminate].
      now apply IH. }
  destruct Hlast as (t1 & _ & Hocc).
  cbn [occur] in Hocc.
  destruct (at_ <? now (tWorld t1)); [discriminate|].
  injection Hocc as <-. cbn [tWorld] in *.
  exists (Locals.buf (vars (tWorld t1))).
  assert (Hbuf : Locals.buf (vars (clearDebounce
                   (addEvent schedule sub o evt (setNow at_ (tWorld t1)))))
                 = Locals.buf (vars (tWorld t1)) ++ [evt]).
  { unfold addEvent.
    destruct (Z.leb_spec (Continuous.debounce schedule) 0); [lia|].
    change (Locals.buf (vars (clearDebounce ?w))) with (Locals.buf (vars w)).
    now destruct (armTimers_keeps schedule
                    (appendEvent evt (clearDebounce (setNow at_ (tWorld t1)))))
      as (-> & _). }
  split; [exact Hbuf|].
  unfold accounted in Hacc'. rewrite Hbuf in Hacc'.
  unfold feedEvents in Hacc'. rewrite flat_map_app in Hacc'.
  cbn [flat_map] in Hacc'. rewrite app_nil_r, app_assoc in Hacc'.
  now apply app_inj_tail in Hacc' as (Hacc' & _).
Qed.

(** X7 on a feed that ends half a second after its second event. *)
Lemma handleEvents_return_drops_pending_witness :
  let schedule := Continuously initVars ["foo"%string]
                    [Debounce (1 * time.Second)] in
  let sub := projection.mkSubscription None in
  let e1 := event.mkEvent 1 "foo" 0 in
  let e2 := event.mkEvent 2 "foo" 1 in
  let xs := [FeedEvent 0 e1 JobSent;
             TimerFires (1 * time.Second) 0 JobSent] ++
            [FeedEvent (3 * time.Second) e2 JobSent] in
  0 < Continuous.debounce schedule /\
  exists fin,
    handleEvents schedule sub 0 xs = Some fin /\
    map jobEvents (created (fWorld fin)) = [[e1]] /\
    noneArmed (fWorld fin) /\
    exists pre, Locals.buf (vars (fWorld fin)) = pre ++ [e2].
Proof.
  intros schedule sub e1 e2 xs.
  assert (Hd : 0 < Continuous.debounce schedule) by (vm_compute; reflexivity).
  split; [exact Hd|].
  destruct (handleEvents schedule sub 0 xs) as [fin|] eqn:E;
    [|vm_compute in E; discriminate].
  exists fin. split; [reflexivity|].
  split; [vm_compute in E; injection E as <-; reflexivity|].
  destruct (handleEvents_return_drops_pending schedule sub 0 xs fin E)
    as (Hnone & _ & _ & _ & Hlast).
  split; [exact Hnone|].
  destruct (Hlast Hd _ (3 * time.Second) e2 JobSent eq_refl) as (pre & Hbuf & _).
  exists pre. exact Hbuf.
Defined.



Lemma addEvent_debounce_on schedule sub o evt w :
  0 < Continuous.debounce schedule ->
  Locals.buf (vars (addEvent schedule sub o evt w)) = Locals.buf (vars w) ++ [evt] /\
  created (addEvent schedule sub o evt w) = created w /\
  sent (addEvent schedule sub o evt w) = sent w.
Proof.
  intros Hd. unfold addEvent.
  destruct (Z.leb_spec (Continuous.debounce schedule) 0); [lia|].
  destruct (armTimers_keeps schedule (appendEvent evt (clearDebounce w)))
    as (-> & -> & ->).
  repeat split.
Qed.

Lemma feed_debounce_on schedule sub o arrivals : forall w,
  0 < Continuous.debounce schedule ->
  settled w ->
  let w1 := feed schedule sub o arrivals w in
  settled w1 /\
  Locals.buf (vars w1) = Locals.buf (vars w) ++ map snd arrivals /\
  created w1 = created w /\ sent w1 = sent w.
Proof.
  induction arrivals as [|a arrivals IH]; intros w Hd Hs.
  - cbn. now rewrite app_nil_r.
  - change (feed schedule sub o (a :: arrivals) w)
      with (feed schedule sub o arrivals
              (addEvent schedule sub o (snd a) (setNow (fst a) w))).
    destruct (addEvent_debounce_on schedule sub o (snd a) (setNow (fst a) w) Hd)
      as (Hb & Hc & Hsn).
    destruct (IH (addEvent schedule sub o (snd a) (setNow (fst a) w)) Hd)
      as (Hs' & Hb' & Hc' & Hsn').
    { now apply addEvent_settled. }
    cbv zeta. rewrite Hb', Hc', Hsn', Hb, Hc, Hsn. cbn.
    now rewrite <- app_assoc.
Qed.

(** X9. With debouncing on, a burst of events processed with no timer
    expiring in between builds no Job; when one of the timers then fires,
    whichever it is, and its callback runs at once with its [select]
    taking the send, the callback builds and sends exactly one Job, holding
    all events of the burst in arrival order, and leaves the buffer empty
    and no timer armed, so the other timer cannot add a second Job. *)
Theorem debounce_coalesces_burst schedule sub o t0 arrivals at_ r w2 :
  0 < Continuous.debounce schedule ->
  let w1 := feed schedule sub o arrivals (initWorld t0) in
  fire r (setNow at_ w1) = Some w2 ->
  let w3 := createJob sub JobSent w2 in
  created w1 = [] /\
  arrivals <> [] /\
  (Locals.debounce (vars w1) = Some r \/ Locals.debounceCap (vars w1) = Some r) /\
  created w3 = [jobOf sub (map snd arrivals)] /\
  sent w3 = [jobOf sub (map snd arrivals)] /\
  Locals.buf (vars w3) = [] /\
  noneArmed w3.
Proof.
  intros Hd w1 Hfire w3.
  destruct (feed_debounce_on schedule sub o arrivals (initWorld t0) Hd
              (settled_init t0)) as (Hs & Hb & Hc & Hsn).
  fold w1 in Hs, Hb, Hc, Hsn. cbn in Hb, Hc, Hsn.
  destruct (fired_createJob_settled sub JobSent r (setNow at_ w1) w2 Hs Hfire)
    as (Hne & Hcr & Hv & Hnone & _).
  destruct (fire_inv r (setNow at_ w1) w2 Hfire)
    as (Hv2 & _ & Hs2 & _ & (t & Hl & Ha & _) & _).
  cbn [vars created setNow] in Hne, Hcr.
  split; [exact Hc|]. split.
  { intros ->. apply Hne. now rewrite Hb. }
  split. { destruct Hs as (Hheld & _). exact (Hheld r t Hl Ha). }
  fold w3 in Hcr, Hv, Hnone. rewrite Hcr, Hc, Hb.
  split; [reflexivity|]. split.
  - subst w3. destruct Hs as (_ & Hflag & _).
    rewrite createJob_unset by (now rewrite Hv2).
    cbn [sent]. rewrite Hs2, Hv2. cbn [sent vars setNow]. now rewrite Hsn, Hb.
  - split; [now rewrite Hv | exact Hnone].
Qed.

(** X9 on three events 0.4s apart with a debounce of 1s and the default
    cap: the debounce timer of the last event, timer 4, fires at 1.8s. *)
Lemma debounce_coalesces_burst_witness :
  let schedule := Continuously initVars ["foo"%string]
                    [Debounce (1 * time.Second)] in
  let sub := projection.mkSubscription None in
  let ev i := event.mkEvent i "foo" 0 in
  let arrivals := [(0, ev 1%nat); (400 * time.Millisecond, ev 2%nat);
                   (800 * time.Millisecond, ev 3%nat)] in
  let w1 := feed schedule sub JobSent arrivals (initWorld 0) in
  0 < Continuous.debounce schedule /\
  exists w2,
    fire 4 (setNow (1800 * time.Millisecond) w1) = Some w2 /\
    map jobEvents (sent (createJob sub JobSent w2))
      = [[ev 1%nat; ev 2%nat; ev 3%nat]] /\
    noneArmed (createJob sub JobSent w2).
Proof.
  intros schedule sub ev arrivals w1.
  assert (Hd : 0 < Continuous.debounce schedule) by (vm_compute; reflexivity).
  split; [exact Hd|].
  destruct (fire 4 (setNow (1800 * time.Millisecond) w1)) as [w2|] eqn:E;
    [|vm_compute in E; discriminate].
  exists w2. split; [reflexivity|].
  destruct (debounce_coalesces_burst schedule sub JobSent 0 arrivals
              (1800 * time.Millisecond) 4 w2 Hd E)
    as (_ & _ & _ & _ & Hsent & _ & Hnone).
  split; [now rewrite Hsent | exact Hnone].
Defined.

(* ===================================================================== *)
(** * What every interleaving keeps *)
(* ===================================================================== *)

Lemma stepFrame_held sub o f m w f' m' w' :
  stepFrame sub o f m w = Some (f', m', w') ->
  armedAreHeld w ->
  armedAreHeld w' /\ (handlesNil w -> handlesNil w').
Proof.
  destruct f as [|job| |]; cbn [stepFrame]; intros Hstep Hheld.
  - destruct m; [discriminate|]. unfold createJob_snapshot in Hstep.
    destruct (Locals.jobCreated (vars w)); injection Hstep as <- <- <-;
      split; auto.
  - injection Hstep as <- <- <-. split; auto.
  - destruct m; [discriminate|]. injection Hstep as <- <- <-. split.
    + apply noneArmed_held. now apply clearDebounce_disarms.
    + intros _. now split.
  - discriminate.
Qed.

Lemma armTimers_held schedule w :
  handlesNil w -> armedAreHeld w -> armedAreHeld (armTimers schedule w).
Proof.
  intros (Hd & Hc) Hheld.
  assert (Hnone : noneArmed w).
  { intros r t Hl Ha. destruct (Hheld r t Hl Ha); congruence. }
  unfold armTimers, AfterFunc, armedAreHeld.
  destruct (0 <? computeDebounceCap schedule); cbn; intros r t Hl Ha.
  - destruct (decide (r < length (timers w))%nat) as [Hlt|Hge].
    + rewrite <- app_assoc, lookup_app_l in Hl by lia.
      now destruct (Hnone r t Hl).
    + apply lookup_lt_Some in Hl. rewrite !length_app in Hl. cbn [length] in Hl.
      destruct (decide (r = length (timers w))) as [->|Hne]; [now left|].
      right. f_equal. rewrite length_app. cbn [length]. lia.
  - destruct (decide (r < length (timers w))%nat) as [Hlt|Hge].
    + rewrite lookup_app_l in Hl by lia. now destruct (Hnone r t Hl).
    + apply lookup_lt_Some in Hl. rewrite length_app in Hl. cbn [length] in Hl.
      left. f_equal. lia.
Qed.

Lemma step_timersHeld schedule sub a s s' :
  step schedule sub a s = Some s' -> timersHeld s -> timersHeld s'.
Proof.
  destruct s as [w m l cbs]. unfold timersHeld.
  destruct a as [d|evt|o|r|i o]; cbn [step world mux loop callbacks];
    intros Hstep (Hheld & Hloop).
  - destruct (d <? 0); [discriminate|]. injection Hstep as <-. now split.
  - destruct l; try discriminate. injection Hstep as <-. now split.
  - destruct l as [|evt|evt|f|]; try discriminate.
    + destruct m; [discriminate|]. injection Hstep as <-.
      cbn [world loop]. split.
      * apply noneArmed_held. now apply clearDebounce_disarms.
      * now split.
    + injection Hstep as <-. cbn [world loop]. split; [exact Hheld|].
      destruct (Continuous.debounce schedule <=? 0); exact Hloop.
    + destruct (stepFrame sub o f m w) as [[[f' m'] w']|] eqn:E; [|discriminate].
      destruct (stepFrame_held sub o f m w f' m' w' E Hheld) as (Hh & Hn).
      destruct f'; injection Hstep as <-; cbn [world loop]; split; auto.
    + destruct m; [discriminate|]. injection Hstep as <-.
      cbn [world loop]. split; [|exact I]. now apply armTimers_held.
  - destruct (timers w !! r) as [[at_ []]|] eqn:Hr; try discriminate.
    destruct (at_ <=? now w); [|discriminate].
    injection Hstep as <-. cbn [world loop]. split; [|exact Hloop].
    intros r' t Hl Ha. cbn in Hl.
    destruct (decide (r = r')) as [->|Hne].
    + rewrite list_lookup_insert_eq in Hl by (now apply lookup_lt_Some in Hr).
      injection Hl as <-. discriminate.
    + rewrite list_lookup_insert_ne in Hl by exact Hne.
      exact (Hheld r' t Hl Ha).
  - destruct (cbs !! i) as [f|]; [|discriminate].
    destruct (stepFrame sub o f m w) as [[[f' m'] w']|] eqn:E; [|discriminate].
    destruct (stepFrame_held sub o f m w f' m' w' E Hheld) as (Hh & Hn).
    injection Hstep as <-. cbn [world loop]. split; [exact Hh|].
    destruct l; auto.
Qed.

Lemma run_timersHeld schedule sub acts : forall s s',
  run schedule sub acts s = Some s' -> timersHeld s -> timersHeld s'.
Proof.
  induction acts as [|a acts IH]; intros s s' Hrun Hinv.
  - now injection Hrun as <-.
  - cbn [run] in Hrun.
    destruct (step schedule sub a s) as [s1|] eqn:Hstep; [|discriminate].
    apply (IH s1 s' Hrun). now apply (step_timersHeld schedule sub a s s1).
Qed.

(** X10. In every interleaving of the event goroutine and the timer
    callbacks, every armed timer is one of the two that the variables
    [debounce] and [debounceCap] point to: a timer that was replaced is
    never left armed, at most two timers are armed at any time, and none is
    while both variables are nil. *)
Theorem armed_timers_are_always_held schedule sub t0 acts s :
  run schedule sub acts (initSystem t0) = Some s ->
  armedAreHeld (world s) /\
  (handlesNil (world s) -> noneArmed (world s)) /\
  (forall r1 r2 r3 t1 t2 t3,
     timers (world s) !! r1 = Some t1 -> time.status t1 = time.Armed ->
     timers (world s) !! r2 = Some t2 -> time.status t2 = time.Armed ->
     timers (world s) !! r3 = Some t3 -> time.status t3 = time.Armed ->
     r1 = r2 \/ r1 = r3 \/ r2 = r3).
Proof.
  intros Hrun.
  assert (Hheld : armedAreHeld (world s)).
  { apply (run_timersHeld schedule sub acts (initSystem t0) s Hrun).
    split; [|exact I]. intros r t Hl. discriminate. }
  split; [exact Hheld|]. split.
  - intros (Hd & Hc) r t Hl Ha. destruct (Hheld r t Hl Ha); congruence.
  - intros r1 r2 r3 t1 t2 t3 L1 A1 L2 A2 L3 A3.
    destruct (Hheld r1 t1 L1 A1) as [H1|H1],
             (Hheld r2 t2 L2 A2) as [H2|H2],
             (Hheld r3 t3 L3 A3) as [H3|H3];
      first [ left; congruence
            | right; left; congruence
            | right; right; congruence ].
Qed.

(** X10 on the run in which an event arrives while the callback of the
    first debounce timer holds [mux]. *)
Lemma armed_timers_are_always_held_witness :
  let schedule := Continuously initVars ["foo"%string] [Debounce (1 * time.Second)] in
  let sub := projection.mkSubscription None in
  let e1 := event.mkEvent 1 "foo" 0 in
  let e2 := event.mkEvent 2 "foo" 1 in
  let acts := [Receive e1; Loop JobSent; Loop JobSent; Loop JobSent;
               Elapse (1 * time.Second); Expire 0;
               Receive e2; Loop JobSent; Callback 0 JobSent; Loop JobSent;
               Callback 0 JobSent; Loop JobSent] in
  exists s,
    run schedule sub acts (initSystem 0) = Some s /\
    map time.status (timers (world s))
      = [time.Fired; time.Stopped; time.Armed; time.Armed] /\
    armedAreHeld (world s).
Proof.
  intros schedule sub e1 e2 acts.
  destruct (run schedule sub acts (initSystem 0)) as [s|] eqn:E;
    [|vm_compute in E; discriminate].
  exists s. split; [reflexivity|].
  split; [vm_compute in E; injection E as <-; reflexivity|].
  exact (proj1 (armed_timers_are_always_held schedule sub 0 acts s E)).
Defined.

Lemma singleton_split {A} (x j : A) (l r : list A) :
  l ++ [x] ++ r = [j] -> l = [] /\ r = [] /\ x = j.
Proof.
  destruct l as [|a l]; cbn; intros H.
  - injection H as -> ->. auto.
  - injection H as _ H. now destruct l.
Qed.

Lemma stepFrame_exclusive sub o f m w f' m' w' A B :
  stepFrame sub o f m w = Some (f', m', w') ->
  exclusive m (A ++ selectingOf f ++ B) ->
  exclusive m' (A ++ selectingOf f' ++ B).
Proof.
  destruct f as [|job| |]; cbn [stepFrame selectingOf]; intros Hstep Hex.
  - destruct m; [discriminate|]. cbn in Hex.
    apply app_eq_nil in Hex as (-> & ->).
    unfold createJob_snapshot in Hstep.
    destruct (Locals.jobCreated (vars w)); injection Hstep as <- <- <-.
    + reflexivity.
    + eexists. reflexivity.
  - injection Hstep as <- <- <-. destruct m.
    + destruct Hex as (j & Hex).
      apply singleton_split in Hex as (-> & -> & _). reflexivity.
    + now destruct A.
  - destruct m; [discriminate|]. injection Hstep as <- <- <-. exact Hex.
  - discriminate.
Qed.

Lemma step_exclusive schedule sub a s s' :
  step schedule sub a s = Some s' ->
  exclusive (mux s) (selecting s) -> exclusive (mux s') (selecting s').
Proof.
  destruct s as [w m l cbs]. unfold selecting.
  destruct a as [d|evt|o|r|i o]; cbn [step world mux loop callbacks];
    intros Hstep Hex.
  - destruct (d <? 0); [discriminate|]. injection Hstep as <-. exact Hex.
  - destruct l; try discriminate. injection Hstep as <-. exact Hex.
  - destruct l as [|evt|evt|f|]; try discriminate.
    + destruct m; [discriminate|]. injection Hstep as <-. exact Hex.
    + injection Hstep as <-. cbn [mux loop callbacks].
      destruct (Continuous.debounce schedule <=? 0); exact Hex.
    + destruct (stepFrame sub o f m w) as [[[f' m'] w']|] eqn:E; [|discriminate].
      pose proof (stepFrame_exclusive sub o f m w f' m' w' []
                    (flat_map selectingOf cbs) E Hex) as H.
      destruct f'; injection Hstep as <-; exact H.
    + destruct m; [discriminate|]. injection Hstep as <-. exact Hex.
  - destruct (timers w !! r) as [[at_ []]|]; try discriminate.
    destruct (at_ <=? now w); [|discriminate]. injection Hstep as <-.
    cbn [mux loop callbacks]. rewrite flat_map_app. cbn [flat_map selectingOf].
    now rewrite !app_nil_r.
  - destruct (cbs !! i) as [f|] eqn:Hi; [|discriminate].
    destruct (stepFrame sub o f m w) as [[[f' m'] w']|] eqn:E; [|discriminate].
    injection Hstep as <-. cbn [mux loop callbacks].
    destruct (flat_map_selecting_insert cbs i f f' Hi) as (A & B & HA & HB).
    rewrite HA in Hex. rewrite HB. rewrite app_assoc in Hex |- *.
    exact (stepFrame_exclusive sub o f m w f' m' w' _ B E Hex).
Qed.

Lemma run_exclusive schedule sub acts : forall s s',
  run schedule sub acts s = Some s' ->
  exclusive (mux s) (selecting s) -> exclusive (mux s') (selecting s').
Proof.
  induction acts as [|a acts IH]; intros s s' Hrun Hex.
  - now injection Hrun as <-.
  - cbn [run] in Hrun.
    destruct (step schedule sub a s) as [s1|] eqn:Hstep; [|discriminate].
    apply (IH s1 s' Hrun). now apply (step_exclusive schedule sub a s s1).
Qed.

(** X11. In every interleaving, taking [clearDebounce] and the arming block
    of [addEvent], which hold [mux] from their first to their last
    statement, as one step each: between steps [mux] is held exactly while
    one invocation of [createJob] stands between its guard and the end of
    its locked part.  Two invocations never copy or truncate the buffer at
    the same time, and an invocation that has left its locked part never
    leaves [mux] taken. *)
Theorem createJob_locked_parts_exclude_each_other schedule sub t0 acts s :
  run schedule sub acts (initSystem t0) = Some s ->
  (length (selecting s) <= 1)%nat /\
  (mux s = true <-> exists job, selecting s = [job]) /\
  (mux s = false <-> selecting s = []).
Proof.
  intros Hrun.
  assert (Hex : exclusive (mux s) (selecting s)).
  { apply (run_exclusive schedule sub acts (initSystem t0) s Hrun).
    reflexivity. }
  unfold exclusive in Hex. destruct (mux s).
  - destruct Hex as (j & ->). cbn. split; [lia|]. split.
    + split; eauto.
    + split; discriminate.
  - rewrite Hex. cbn. split; [lia|]. split.
    + split; [discriminate|]. intros (j & Hj). discriminate.
    + split; reflexivity.
Qed.

(** X11 on a run in which the first callback holds [mux] at its [select]
    while the second waits at the lock. *)
Lemma createJob_locked_parts_exclude_each_other_witness :
  let schedule := Continuously initVars ["foo"%string]
                    [Debounce (1 * time.Second); DebounceCap (1 * time.Second)] in
  let sub := projection.mkSubscription None in
  let e1 := event.mkEvent 1 "foo" 0 in
  let acts := [Receive e1; Loop JobSent; Loop JobSent; Loop JobSent;
               Elapse (1 * time.Second); Expire 0; Expire 1;
               Callback 0 JobSent] in
  exists s,
    run schedule sub acts (initSystem 0) = Some s /\
    callbacks s = [AtSelect (jobOf sub [e1]); AtLock] /\
    mux s = true /\
    (length (selecting s) <= 1)%nat.
Proof.
  intros schedule sub e1 acts.
  destruct (run schedule sub acts (initSystem 0)) as [s|] eqn:E;
    [|vm_compute in E; discriminate].
  exists s. split; [reflexivity|].
  split; [vm_compute in E; injection E as <-; reflexivity|].
  split; [vm_compute in E; injection E as <-; reflexivity|].
  exact (proj1 (createJob_locked_parts_exclude_each_other
                  schedule sub 0 acts s E)).
Defined.

Lemma sentOf_refl strict l : sentOf strict l l.
Proof. destruct strict; cbn; reflexivity. Qed.

Lemma stepFrame_delivers strict sub o f m w f' m' w' A B :
  (strict = true -> o = JobSent) ->
  stepFrame sub o f m w = Some (f', m', w') ->
  delivers strict m (A ++ selectingOf f ++ B) w ->
  delivers strict m' (A ++ selectingOf f' ++ B) w'.
Proof.
  intros Ho.
  destruct f as [|job| |]; cbn [stepFrame selectingOf]; intros Hstep Hdel.
  - destruct m; [discriminate|]. destruct Hdel as (Hsel & Hdel).
    apply app_eq_nil in Hsel as (-> & HB). cbn in HB. subst B.
    unfold createJob_snapshot in Hstep.
    destruct (Locals.jobCreated (vars w)); injection Hstep as <- <- <-.
    + split; [reflexivity | exact Hdel].
    + eexists _, (created w). split; [reflexivity|].
      split; [reflexivity | exact Hdel].
  - injection Hstep as <- <- <-. destruct m.
    + destruct Hdel as (j & c0 & Hsel & Hc & Hdel).
      apply singleton_split in Hsel as (-> & -> & ->).
      split; [reflexivity|]. cbn [created sent createJob_deliver]. rewrite Hc.
      destruct strict; cbn in *.
      * rewrite (Ho eq_refl). now rewrite Hdel.
      * destruct o.
        -- now apply sublist_inserts_r.
        -- apply sublist_app; [exact Hdel | reflexivity].
    + destruct Hdel as (Hsel & _). now destruct A.
  - destruct m; [discriminate|]. injection Hstep as <- <- <-. exact Hdel.
  - discriminate.
Qed.

Lemma step_delivers strict schedule sub a s s' :
  (strict = true -> takesSend a = true) ->
  step schedule sub a s = Some s' ->
  delivers strict (mux s) (selecting s) (world s) ->
  delivers strict (mux s') (selecting s') (world s').
Proof.
  destruct s as [w m l cbs]. unfold selecting.
  destruct a as [d|evt|o|r|i o]; cbn [step world mux loop callbacks];
    intros Ho Hstep Hdel.
  - destruct (d <? 0); [discriminate|]. injection Hstep as <-. exact Hdel.
  - destruct l; try discriminate. injection Hstep as <-. exact Hdel.
  - assert (Ho' : strict = true -> o = JobSent).
    { intros E. specialize (Ho E). now destruct o. }
    destruct l as [|evt|evt|f|]; try discriminate.
    + destruct m; [discriminate|]. injection Hstep as <-. exact Hdel.
    + injection Hstep as <-. cbn [mux loop callbacks world].
      destruct (Continuous.debounce schedule <=? 0); exact Hdel.
    + destruct (stepFrame sub o f m w) as [[[f' m'] w']|] eqn:E; [|discriminate].
      pose proof (stepFrame_delivers strict sub o f m w f' m' w' []
                    (flat_map selectingOf cbs) Ho' E Hdel) as H.
      destruct f'; injection Hstep as <-; exact H.
    + destruct m; [discriminate|]. injection Hstep as <-.
      cbn [mux loop callbacks world] in *. destruct Hdel as (Hsel & Hdel).
      split; [exact Hsel|].
      now destruct (armTimers_keeps schedule w) as (_ & -> & ->).
  - destruct (timers w !! r) as [[at_ []]|]; try discriminate.
    destruct (at_ <=? now w); [|discriminate]. injection Hstep as <-.
    cbn [mux loop callbacks world]. rewrite flat_map_app.
    cbn [flat_map selectingOf]. rewrite !app_nil_r. exact Hdel.
  - assert (Ho' : strict = true -> o = JobSent).
    { intros E. specialize (Ho E). now destruct o. }
    destruct (cbs !! i) as [f|] eqn:Hi; [|discriminate].
    destruct (stepFrame sub o f m w) as [[[f' m'] w']|] eqn:E; [|discriminate].
    injection Hstep as <-. cbn [mux loop callbacks world].
    destruct (flat_map_selecting_insert cbs i f f' Hi) as (A & B & HA & HB).
    rewrite HA in Hdel. rewrite HB. rewrite app_assoc in Hdel |- *.
    exact (stepFrame_delivers strict sub o f m w f' m' w' _ B Ho' E Hdel).
Qed.

Lemma run_delivers strict schedule sub acts : forall s s',
  (strict = true -> forallb takesSend acts = true) ->
  run schedule sub acts s = Some s' ->
  delivers strict (mux s) (selecting s) (world s) ->
  delivers strict (mux s') (selecting s') (world s').
Proof.
  induction acts as [|a acts IH]; intros s s' Ho Hrun Hdel.
  - now injection Hrun as <-.
  - cbn [run] in Hrun.
    destruct (step schedule sub a s) as [s1|] eqn:Hstep; [|discriminate].
    apply (IH s1 s'); [|exact Hrun|].
    + intros E. specialize (Ho E). cbn in Ho. now apply andb_prop in Ho.
    + apply (step_delivers strict schedule sub a s s1); [|exact Hstep|exact Hdel].
      intros E. specialize (Ho E). cbn in Ho. now apply andb_prop in Ho.
Qed.

(** X12. In every interleaving, the Jobs put on the [jobs] channel are Jobs
    that [createJob] built, in the order it built them and none twice.
    When no [select] takes [ctx.Done()], none is dropped either: with
    [mux] free every Job built has been sent, and with [mux] held only the
    Job of the invocation at the [select], the last one built, is still to
    be sent. *)
Theorem jobs_are_sent_in_the_order_built schedule sub t0 acts s :
  run schedule sub acts (initSystem t0) = Some s ->
  sublist (sent (world s)) (created (world s)) /\
  (forallb takesSend acts = true ->
   (mux s = false -> sent (world s) = created (world s)) /\
   (mux s = true ->
    exists job, selecting s = [job] /\
                created (world s) = sent (world s) ++ [job])).
Proof.
  intros Hrun. split.
  - assert (H : delivers false (mux s) (selecting s) (world s)).
    { apply (run_delivers false schedule sub acts (initSystem t0) s);
        [discriminate | exact Hrun|]. split; reflexivity. }
    unfold delivers in H. destruct (mux s).
    + destruct H as (j & c0 & _ & -> & H). now apply sublist_inserts_r.
    + now destruct H.
  - intros Hsend.
    assert (H : delivers true (mux s) (selecting s) (world s)).
    { apply (run_delivers true schedule sub acts (initSystem t0) s);
        [auto | exact Hrun|]. split; reflexivity. }
    unfold delivers in H. destruct (mux s).
    + split; [discriminate|]. intros _.
      destruct H as (j & c0 & Hsel & Hc & H). cbn in H. subst c0. eauto.
    + split; [|discriminate]. intros _. now destruct H.
Qed.

(** X12 on a run in which the second of three Jobs is dropped by its
    [select]. *)
Lemma jobs_are_sent_in_the_order_built_witness :
  let schedule := Continuously initVars ["foo"%string] [] in
  let sub := projection.mkSubscription None in
  let ev i := event.mkEvent i "foo" 0 in
  let one o i := [Receive (ev i); Loop o; Loop o; Loop o; Loop o; Loop o] in
  let acts := one JobSent 1%nat ++ one CtxDone 2%nat ++ one JobSent 3%nat in
  let sends := one JobSent 1%nat ++ one JobSent 2%nat in
  (exists s,
     run schedule sub acts (initSystem 0) = Some s /\
     map jobEvents (created (world s)) = [[ev 1%nat]; [ev 2%nat]; [ev 3%nat]] /\
     map jobEvents (sent (world s)) = [[ev 1%nat]; [ev 3%nat]] /\
     sublist (sent (world s)) (created (world s))) /\
  (exists s,
     run schedule sub sends (initSystem 0) = Some s /\
     forallb takesSend sends = true /\
     mux s = false /\
     sent (world s) = created (world s)).
Proof.
  intros schedule sub ev one acts sends. split.
  - destruct (run schedule sub acts (initSystem 0)) as [s|] eqn:E;
      [|vm_compute in E; discriminate].
    exists s. split; [reflexivity|].
    split; [vm_compute in E; injection E as <-; reflexivity|].
    split; [vm_compute in E; injection E as <-; reflexivity|].
    exact (proj1 (jobs_are_sent_in_the_order_built schedule sub 0 acts s E)).
  - destruct (run schedule sub sends (initSystem 0)) as [s|] eqn:E;
      [|vm_compute in E; discriminate].
    exists s. split; [reflexivity|].
    assert (Hs : forallb takesSend sends = true) by reflexivity.
    assert (Hm : mux s = false)
      by (vm_compute in E; injection E as <-; reflexivity).
    split; [exact Hs|]. split; [exact Hm|].
    destruct (jobs_are_sent_in_the_order_built schedule sub 0 sends s E)
      as (_ & H).
    exact (proj1 (H Hs) Hm).
Defined.

(** X13 on the run in which both timers of one batch fire and the second
    callback builds its Job after the first has returned: no append runs
    while [mux] is held, and the one event is in one Job. *)
Lemma serialised_appends_account_for_every_event_witness :
  let schedule := Continuously initVars ["foo"%string]
                    [Debounce (1 * time.Second); DebounceCap (1 * time.Second)] in
  let sub := projection.mkSubscription None in
  let e1 := event.mkEvent 1 "foo" 0 in
  let acts := [Receive e1; Loop JobSent; Loop JobSent; Loop JobSent;
               Elapse (1 * time.Second); Expire 0; Expire 1;
               Callback 0 JobSent; Callback 0 JobSent; Callback 0 JobSent;
               Callback 1 JobSent; Callback 1 JobSent; Callback 1 JobSent] in
  exists s,
    run schedule sub acts (initSystem 0) = Some s /\
    appendsSerialised schedule sub acts (initSystem 0) = true /\
    appended schedule sub acts (initSystem 0) = [e1] /\
    mux s = false /\
    accounted (world s) = [e1].
Proof.
  intros schedule sub e1 acts.
  destruct (run schedule sub acts (initSystem 0)) as [s|] eqn:E;
    [|vm_compute in E; discriminate].
  exists s. split; [reflexivity|].
  assert (Hser : appendsSerialised schedule sub acts (initSystem 0) = true)
    by (vm_compute; reflexivity).
  assert (Hap : appended schedule sub acts (initSystem 0) = [e1])
    by (vm_compute; reflexivity).
  assert (Hm : mux s = false)
    by (vm_compute in E; injection E as <-; reflexivity).
  split; [exact Hser|]. split; [exact Hap|]. split; [exact Hm|].
  pose proof (serialised_appends_account_for_every_event schedule sub acts
                (initSystem 0) s [] E Hser (conj eq_refl eq_refl)) as H.
  rewrite Hm, Hap in H. exact (proj2 H).
Defined.

(* ===================================================================== *)
(** * [Subscribe]: what it returns *)
(* ===================================================================== *)

(** X14. [Subscribe] returns either the channel [out] with a nil error, or a
    nil channel with a wrapped error, never both and never neither.  In
    the first case all five goroutines have been started, the cleanup one
    first; in the second none of the event, trigger, apply and
    channel-closing tasks has.  The error wraps the collaborator's error
    ([errors.Unwrap] gives it back), and its message starts with
    "subscribe to" for the bus and "startup: " for the startup Job. *)
Theorem Subscribe_returns_channel_or_error env schedule cfg :
  let r := Subscribe env schedule cfg in
  (errs r = Some chOut /\ err r = None /\
   started r = [goRemoveTriggers; goHandleEvents; goHandleTriggers;
                goApplyJobs; goCloseJobs] /\
   busSubscribe env (Continuous.eventNames schedule) = None /\
   (projection.Startup cfg = None \/ applyStartupJob env cfg = None)) \/
  (errs r = None /\
   (forall g, In g (started r) -> g = goRemoveTriggers) /\
   exists e,
     (busSubscribe env (Continuous.eventNames schedule) = Some e \/
      (busSubscribe env (Continuous.eventNames schedule) = None /\
       projection.Startup cfg <> None /\ applyStartupJob env cfg = Some e)) /\
     exists w, err r = Some w /\ Unwrap w = Some e /\
               (String.prefix "subscribe to " (Error w) = true \/
                Error w = ("startup: " ++ Error e)%string)).
Proof.
  cbv zeta. unfold Subscribe.
  destruct (busSubscribe env (Continuous.eventNames schedule)) as [e|] eqn:Hb.
  - right. split; [reflexivity|]. split; [intros g []|].
    exists e. split; [now left|]. eexists. split; [reflexivity|].
    split; [reflexivity|]. left. reflexivity.
  - destruct (projection.Startup cfg) as [tr|] eqn:Hs.
    + destruct (applyStartupJob env cfg) as [e|] eqn:Ha.
      * right. split; [reflexivity|]. split.
        { intros g [<-|[]]. reflexivity. }
        exists e. split; [right; repeat split; congruence|].
        eexists. split; [reflexivity|]. split; [reflexivity|]. now right.
      * left. repeat split; auto.
    + left. repeat split; auto.
Qed.

(* ===================================================================== *)
(** * The deferred [clearDebounce] of a callback and the timers of a later
      event *)
(* ===================================================================== *)

(** C3, on the code: the deferred [clearDebounce] of [createJob] (line 231)
    runs after [mux] is released and stops whatever the two variables point
    to by then.  With a debounce of 1s and a cap of 3s, the debounce timer
    of event 1 fires and its callback sends the Job of event 1 and releases
    [mux]; event 2 arrives at 1.2s and [addEvent] stops the old timers and
    arms timers 2 and 3, the cap timer for 4.2s, three seconds after event
    2; then the callback runs its deferred [clearDebounce], which stops
    timers 2 and 3 and sets both variables to nil.  Event 2 is in the
    buffer, no timer is armed, and however much time passes none can
    fire: nothing bounds the wait of event 2. *)
Theorem stale_clearDebounce_disarms_fresh_timers :
  let schedule :=
    Continuously initVars ["foo"%string]
      [Debounce (1 * time.Second); DebounceCap (3 * time.Second)] in
  let sub := projection.mkSubscription None in
  let e1 := event.mkEvent 1 "foo" 0 in
  let e2 := event.mkEvent 2 "foo" (1200 * time.Millisecond) in
  let first_sent :=
    [Receive e1; Loop JobSent; Loop JobSent; Loop JobSent;
     Elapse (1 * time.Second); Expire 0;
     Callback 0 JobSent; Callback 0 JobSent] in
  let second_added :=
    first_sent ++
    [Elapse (200 * time.Millisecond);
     Receive e2; Loop JobSent; Loop JobSent; Loop JobSent] in
  let first_returned := second_added ++ [Callback 0 JobSent] in
  0 < Continuous.debounce schedule /\
  computeDebounceCap schedule = 3 * time.Second /\
  (exists s,
     run schedule sub second_added (initSystem 0) = Some s /\
     loop s = Waiting /\
     callbacks s = [AtDeferredClear] /\
     Locals.buf (vars (world s)) = [e2] /\
     Locals.debounce (vars (world s)) = Some 2%nat /\
     Locals.debounceCap (vars (world s)) = Some 3%nat /\
     timers (world s) =
       [time.mkTimer (1 * time.Second) time.Fired;
        time.mkTimer (3 * time.Second) time.Stopped;
        time.mkTimer (2200 * time.Millisecond) time.Armed;
        time.mkTimer (4200 * time.Millisecond) time.Armed]) /\
  (exists s,
     run schedule sub first_returned (initSystem 0) = Some s /\
     loop s = Waiting /\
     callbacks s = [Returned] /\
     mux s = false /\
     map jobEvents (sent (world s)) = [[e1]] /\
     created (world s) = sent (world s) /\
     Locals.buf (vars (world s)) = [e2] /\
     Locals.debounce (vars (world s)) = None /\
     Locals.debounceCap (vars (world s)) = None /\
     timers (world s) =
       [time.mkTimer (1 * time.Second) time.Fired;
        time.mkTimer (3 * time.Second) time.Stopped;
        time.mkTimer (2200 * time.Millisecond) time.Stopped;
        time.mkTimer (4200 * time.Millisecond) time.Stopped] /\
     (forall d r, run schedule sub [Elapse d; Expire r] s = None) /\
     (forall d i o, run schedule sub [Elapse d; Callback i o] s = None)).
Proof.
  cbv zeta. split; [vm_compute; reflexivity|]. split; [vm_compute; reflexivity|].
  split.
  - eexists. split; [vm_compute; reflexivity|]. repeat split.
  - eexists. split; [vm_compute; reflexivity|].
    do 9 (split; [reflexivity|]). split.
    + intros d r. cbn [run step world]. destruct (d <? 0); [reflexivity|].
      cbn [timers setNow world].
      destruct r as [|[|[|[|r]]]]; reflexivity.
    + intros d i o. cbn [run step world]. destruct (d <? 0); [reflexivity|].
      cbn [callbacks]. destruct i as [|i]; reflexivity.
Qed.

(* ===================================================================== *)
(** * After [handleEvents] has returned *)
(* ===================================================================== *)

Lemma stepFrame_quiet sub o f m w f' m' w' :
  stepFrame sub o f m w = Some (f', m', w') ->
  noneArmed w -> handlesNil w ->
  noneArmed w' /\ handlesNil w'.
Proof.
  intros Hstep Hnone Hnil.
  destruct (stepFrame_held sub o f m w f' m' w' Hstep (noneArmed_held w Hnone))
    as (_ & Hn).
  split; [|now apply Hn].
  destruct f as [|job| |]; cbn [stepFrame] in Hstep.
  - destruct m; [discriminate|]. unfold createJob_snapshot in Hstep.
    destruct (Locals.jobCreated (vars w)); injection Hstep as <- <- <-;
      exact Hnone.
  - injection Hstep as <- <- <-. exact Hnone.
  - destruct m; [discriminate|]. injection Hstep as <- <- <-.
    apply clearDebounce_disarms. now apply noneArmed_held.
  - discriminate.
Qed.

Lemma step_quiet schedule sub a s s' :
  afterReturn a = true ->
  step schedule sub a s = Some s' ->
  noneArmed (world s) /\ handlesNil (world s) ->
  (noneArmed (world s') /\ handlesNil (world s')) /\
  loop s' = loop s /\
  (Forall (fun f => f = Returned) (callbacks s) ->
   callbacks s' = callbacks s /\
   vars (world s') = vars (world s) /\
   created (world s') = created (world s) /\
   sent (world s') = sent (world s)).
Proof.
  destruct s as [w m l cbs].
  destruct a as [d|evt|o|r|i o]; try discriminate; intros _;
    cbn [step world mux loop callbacks]; intros Hstep (Hnone & Hnil).
  - destruct (d <? 0); [discriminate|]. injection Hstep as <-.
    cbn [world loop callbacks]. repeat split; auto; apply Hnil.
  - destruct (timers w !! r) as [[at_ st]|] eqn:Hr; [|discriminate].
    destruct st; try discriminate.
    now destruct (Hnone r _ Hr).
  - destruct (cbs !! i) as [f|] eqn:Hi; [|discriminate].
    destruct (stepFrame sub o f m w) as [[[f' m'] w']|] eqn:E; [|discriminate].
    injection Hstep as <-. cbn [world loop callbacks].
    split; [exact (stepFrame_quiet sub o f m w f' m' w' E Hnone Hnil)|].
    split; [reflexivity|].
    intros Hall. rewrite Forall_forall in Hall.
    assert (f = Returned) as ->.
    { apply Hall. apply list_elem_of_lookup. eauto. }
    discriminate E.
Qed.

Lemma run_quiet schedule sub acts : forall s s',
  forallb afterReturn acts = true ->
  run schedule sub acts s = Some s' ->
  noneArmed (world s) /\ handlesNil (world s) ->
  (noneArmed (world s') /\ handlesNil (world s')) /\
  (Forall (fun f => f = Returned) (callbacks s) ->
   callbacks s' = callbacks s /\
   vars (world s') = vars (world s) /\
   created (world s') = created (world s) /\
   sent (world s') = sent (world s)).
Proof.
  induction acts as [|a acts IH]; intros s s' Hacts Hrun Hq.
  - injection Hrun as <-. split; [exact Hq|]. auto.
  - cbn [run forallb] in *. apply andb_prop in Hacts as (Ha & Hacts).
    destruct (step schedule sub a s) as [s1|] eqn:Hstep; [|discriminate].
    destruct (step_quiet schedule sub a s s1 Ha Hstep Hq) as (Hq1 & _ & Hsame1).
    destruct (IH s1 s' Hacts Hrun Hq1) as (Hq' & Hsame').
    split; [exact Hq'|]. intros Hall.
    destruct (Hsame1 Hall) as (Hc1 & Hv1 & Hcr1 & Hs1).
    destruct Hsame' as (Hc' & Hv' & Hcr' & Hs'); [now rewrite Hc1|].
    repeat split; congruence.
Qed.

(** X16. In every interleaving: once [handleEvents] has returned, that is
    once its deferred [clearDebounce] has run, no timer is armed and both
    timer variables are nil, and this stays so whatever the clock and the
    callbacks still in flight do.  When no callback is in flight at the
    return, nothing changes any more: the events then in the buffer stay
    there and never reach a Job. *)
Theorem handleEvents_return_disarms_for_good schedule sub t0 acts s s1 acts' s2 :
  run schedule sub acts (initSystem t0) = Some s ->
  returnHandleEvents s = Some s1 ->
  forallb afterReturn acts' = true ->
  run schedule sub acts' s1 = Some s2 ->
  Locals.buf (vars (world s1)) = Locals.buf (vars (world s)) /\
  created (world s1) = created (world s) /\
  noneArmed (world s2) /\
  handlesNil (world s2) /\
  (Forall (fun f => f = Returned) (callbacks s) ->
   Locals.buf (vars (world s2)) = Locals.buf (vars (world s)) /\
   created (world s2) = created (world s) /\
   sent (world s2) = sent (world s)).
Proof.
  intros Hrun Hret Hacts Hrun'.
  assert (Hheld : armedAreHeld (world s)).
  { apply (run_timersHeld schedule sub acts (initSystem t0) s Hrun).
    split; [|exact I]. intros r t Hl. discriminate. }
  unfold returnHandleEvents in Hret.
  destruct (loop s); try discriminate. destruct (mux s); [discriminate|].
  injection Hret as <-.
  destruct (run_quiet schedule sub acts' _ s2 Hacts Hrun') as ((Hnone & Hnil) & Hsame).
  { cbn [world]. split; [now apply clearDebounce_disarms | now split]. }
  split; [reflexivity|]. split; [reflexivity|].
  split; [exact Hnone|]. split; [exact Hnil|].
  intros Hall. destruct (Hsame Hall) as (_ & Hv & Hc & Hs).
  cbn [world] in Hv, Hc, Hs. rewrite Hv, Hc, Hs. repeat split.
Qed.

(** X16 on a feed that ends 0.5s after its second event, the first event
    having gone out in a Job: event 2 is still buffered ten seconds on. *)
Lemma handleEvents_return_disarms_for_good_witness :
  let schedule := Continuously initVars ["foo"%string] [Debounce (1 * time.Second)] in
  let sub := projection.mkSubscription None in
  let e1 := event.mkEvent 1 "foo" 0 in
  let e2 := event.mkEvent 2 "foo" 1 in
  let acts := [Receive e1; Loop JobSent; Loop JobSent; Loop JobSent;
               Elapse (1 * time.Second); Expire 0;
               Callback 0 JobSent; Callback 0 JobSent; Callback 0 JobSent;
               Receive e2; Loop JobSent; Loop JobSent; Loop JobSent;
               Elapse (500 * time.Millisecond)] in
  let acts' := [Elapse (10 * time.Second)] in
  exists s s1 s2,
    run schedule sub acts (initSystem 0) = Some s /\
    returnHandleEvents s = Some s1 /\
    forallb afterReturn acts' = true /\
    run schedule sub acts' s1 = Some s2 /\
    Forall (fun f => f = Returned) (callbacks s) /\
    Locals.buf (vars (world s)) = [e2] /\
    Locals.buf (vars (world s2)) = [e2] /\
    map jobEvents (created (world s2)) = [[e1]] /\
    noneArmed (world s2).
Proof.
  intros schedule sub e1 e2 acts acts'.
  destruct (run schedule sub acts (initSystem 0)) as [s|] eqn:E;
    [|vm_compute in E; discriminate].
  destruct (returnHandleEvents s) as [s1|] eqn:E1;
    [|vm_compute in E; injection E as <-; discriminate E1].
  destruct (run schedule sub acts' s1) as [s2|] eqn:E2;
    [|vm_compute in E; injection E as <-; vm_compute in E1;
      injection E1 as <-; discriminate E2].
  exists s, s1, s2.
  assert (Hacts : forallb afterReturn acts' = true) by reflexivity.
  assert (Hall : Forall (fun f => f = Returned) (callbacks s)).
  { vm_compute in E. injection E as <-. repeat constructor. }
  assert (Hbuf : Locals.buf (vars (world s)) = [e2]).
  { vm_compute in E. injection E as <-. reflexivity. }
  assert (Hcr : map jobEvents (created (world s)) = [[e1]]).
  { vm_compute in E. injection E as <-. reflexivity. }
  destruct (handleEvents_return_disarms_for_good schedule sub 0 acts s s1 acts' s2
              E E1 Hacts E2) as (_ & _ & Hnone & _ & Hsame).
  destruct (Hsame Hall) as (Hb2 & Hc2 & _).
  repeat split; try assumption; try reflexivity.
  - now rewrite Hb2.
  - now rewrite Hc2.
Defined.
